(** * mkt: the Mann-Kendall trend test, [mkt.test]

    A shallow embedding of [mkt.py] (function [test]) and the properties
    of it that the specification states.

    Modelling conventions.
    - A NumPy float array is a [list Q]; a Python or NumPy float that the
      code computes is an [fl]: a finite rational, an infinity or NaN.
      Arithmetic on finite values is exact: rounding and overflow of
      binary64 are outside the model, and so are signed zeros (every
      divisor the code uses comes from [np.sqrt] or is a constant, so no
      negative zero divides).
    - NumPy integers ([dtype="int"], 64 bits) are [Z]. The entries of
      [sgn] are in [{-1,0,1}] or the diagonal marker, [S] is bounded by
      [n(n-1)/2] and the tie counts by [n], so no wrap-around occurs for
      any array that fits in memory; the one conversion that can leave
      the range, the float-to-int store of [fill_diagonal], is written
      out in [int64_of_float].
    - NumPy arrays that the code updates in place ([tmp], [sgn], [q]) and
      the caller's arrays [t] and [x] live in a store and are named by
      their location; arrays that are only read are values.
    - [np.sqrt], [scipy.special.ndtr] and [scipy.special.ndtri] are not
      part of the repository: on finite arguments in their domain they
      are the fields of [NumLib]; what they return outside it (NaN,
      infinities) is written out. *)

From Stdlib Require Import ZArith QArith Qabs Lia Lqa String List.
From Stdlib Require Import SetoidList SetoidPermutation.
From stdpp Require Import base list.

Set Default Proof Using "Type".

(** ** Numbers *)

Module Num.

Local Open Scope Q_scope.

Definition Qltb (a b : Q) : bool := negb (Qle_bool b a).

(** A binary64 value: finite (idealised as a rational), infinite or NaN. *)
Inductive fl : Type :=
| Fin (q : Q)
| PInf
| NInf
| NaN.

(** Equality of floats as values: [Qeq] on the finite ones. *)
Definition fl_eq (a b : fl) : Prop :=
  match a, b with
  | Fin p, Fin q => p == q
  | PInf, PInf | NInf, NInf | NaN, NaN => True
  | _, _ => False
  end.

Definition fl_neg (a : fl) : fl :=
  match a with
  | Fin q => Fin (- q)
  | PInf => NInf
  | NInf => PInf
  | NaN => NaN
  end.

Definition fl_abs (a : fl) : fl :=
  match a with
  | Fin q => Fin (Qabs q)
  | PInf | NInf => PInf
  | NaN => NaN
  end.

(** [a - b] *)
Definition fl_sub (a b : fl) : fl :=
  match a, b with
  | NaN, _ | _, NaN => NaN
  | Fin p, Fin q => Fin (p - q)
  | Fin _, PInf => NInf
  | Fin _, NInf => PInf
  | PInf, PInf => NaN
  | PInf, _ => PInf
  | NInf, NInf => NaN
  | NInf, _ => NInf
  end.

(** [a + b] *)
Definition fl_add (a b : fl) : fl :=
  match a, b with
  | NaN, _ | _, NaN => NaN
  | Fin p, Fin q => Fin (p + q)
  | PInf, NInf | NInf, PInf => NaN
  | PInf, _ | _, PInf => PInf
  | NInf, _ | _, NInf => NInf
  end.

(** The sign of a finite value: [1], [0] or [-1]. *)
Definition Qsign (q : Q) : Z := Z.sgn (Qnum q).

(** An infinity of the given sign; NaN for sign [0]. *)
Definition inf_of_sign (s : Z) : fl :=
  match s with
  | Zpos _ => PInf
  | Zneg _ => NInf
  | Z0 => NaN
  end.

(** [a * b]: zero times infinity is NaN. *)
Definition fl_mul (a b : fl) : fl :=
  match a, b with
  | NaN, _ | _, NaN => NaN
  | Fin p, Fin q => Fin (p * q)
  | Fin p, PInf | PInf, Fin p => inf_of_sign (Qsign p)
  | Fin p, NInf | NInf, Fin p => inf_of_sign (- Qsign p)
  | PInf, PInf | NInf, NInf => PInf
  | PInf, NInf | NInf, PInf => NInf
  end.

(** [a / b] as NumPy divides float64 scalars: a zero divisor gives an
    infinity of the sign of the dividend, or NaN for [0/0]; no exception. *)
Definition fl_div (a b : fl) : fl :=
  match a, b with
  | NaN, _ | _, NaN => NaN
  | Fin p, Fin q =>
      if Qeq_bool q 0 then inf_of_sign (Qsign p) else Fin (p / q)
  | Fin _, (PInf | NInf) => Fin 0
  | PInf, Fin q => if Qltb q 0 then NInf else PInf
  | NInf, Fin q => if Qltb q 0 then PInf else NInf
  | (PInf | NInf), (PInf | NInf) => NaN
  end.

(** [a <= b]; every comparison with NaN is false. *)
Definition fl_leb (a b : fl) : bool :=
  match a, b with
  | NaN, _ | _, NaN => false
  | Fin p, Fin q => Qle_bool p q
  | NInf, _ => true
  | _, PInf => true
  | _, _ => false
  end.

Definition fl_geb (a b : fl) : bool := fl_leb b a.

(** [np.clip(a, lo, hi)] on a scalar; NaN stays NaN. *)
Definition fl_clip (lo hi : Q) (a : fl) : fl :=
  match a with
  | NaN => NaN
  | PInf => Fin hi
  | NInf => Fin lo
  | Fin q => if Qltb q lo then Fin lo else if Qltb hi q then Fin hi else Fin q
  end.

(** The value lies in the closed interval [[lo, hi]]. *)
Definition fl_in (lo hi : Q) (a : fl) : Prop :=
  match a with
  | Fin q => lo <= q <= hi
  | _ => False
  end.

(** Storing a float into an [int64] array: truncation towards zero; a
    value outside the range becomes the least [int64] (what the x86-64
    conversion yields). *)
Definition int64_of_float (q : Q) : Z :=
  let z := Z.quot (Qnum q) (Zpos (Qden q)) in
  if (Z.leb (- 2 ^ 63) z && Z.ltb z (2 ^ 63))%bool then z else (- 2 ^ 63)%Z.

(** The functions of NumPy and SciPy that the code calls, on the finite
    arguments of their domain. *)
Class NumLib : Type := {
  sqrtQ : Q -> Q;                (* np.sqrt on [0, inf) *)
  Phi : Q -> Q;                  (* scipy.special.ndtr *)
  PhiInv : Q -> Q;               (* scipy.special.ndtri on (0, 1) *)
  sqrtQ_proper : Proper (Qeq ==> Qeq) sqrtQ;
  Phi_proper : Proper (Qeq ==> Qeq) Phi;
  PhiInv_proper : Proper (Qeq ==> Qeq) PhiInv;
  sqrtQ_0 : sqrtQ 0 == 0;
  sqrtQ_pos : forall v, 0 < v -> 0 < sqrtQ v;
  Phi_range : forall z, 0 <= Phi z <= 1
}.

Section WithLib.
Context {L : NumLib}.

(** [np.sqrt]: NaN on a negative argument (with a warning, no exception). *)
Definition np_sqrt (v : Q) : fl :=
  if Qltb v 0 then NaN else Fin (sqrtQ v).

(** [scipy.special.ndtr], the standard normal CDF. *)
Definition ndtr (z : fl) : fl :=
  match z with
  | Fin q => Fin (Phi q)
  | PInf => Fin 1
  | NInf => Fin 0
  | NaN => NaN
  end.

(** [scipy.special.ndtri], the inverse of [ndtr], on a finite argument. *)
Definition ndtri (p : Q) : fl :=
  if Qeq_bool p 0 then NInf
  else if Qeq_bool p 1 then PInf
  else if (Qltb p 0 || Qltb 1 p)%bool then NaN
  else Fin (PhiInv p).

End WithLib.

(** A coarse rational instance, to run the model on concrete inputs:
    the identity for the square root and a rational sigmoid with its
    inverse for the normal distribution. The theorems below hold for
    every instance. *)
Definition sigmoid (z : Q) : Q := (1 # 2) + z / (2 * (1 + Qabs z)).
Definition sigmoid_inv (p : Q) : Q :=
  (2 * p - 1) / (1 - Qabs (2 * p - 1)).

End Num.

(** ** Python objects, exceptions and the store *)

Module Py.

Abbreviation loc := nat.

(** The NumPy arrays of the program: a 1-D float array, a 2-D [int]
    array (row-major) and a 1-D [int] array. *)
Inductive obj : Type :=
| FArr (a : list Q)
| IMat (m : list (list Z))
| IArr (a : list Z).

Abbreviation store := (list obj).

Inductive exn : Type :=
| AssertionError
| IndexError
| ValueError
| TypeError
| UnboundLocalError.

Inductive outcome (A : Type) : Type :=
| Ok (a : A)
| Raise (e : exn).
Arguments Ok {A} a.
Arguments Raise {A} e.

(** A computation reads and updates the store and returns or raises. *)
Definition M (A : Type) : Type := store -> store * outcome A.

Definition ret {A} (a : A) : M A := fun s => (s, Ok a).
Definition raise {A} (e : exn) : M A := fun s => (s, Raise e).
Definition bind {A B} (c : M A) (k : A -> M B) : M B :=
  fun s =>
    match c s with
    | (s', Ok a) => k a s'
    | (s', Raise e) => (s', Raise e)
    end.

Notation "x <- c ;; k" := (bind c (fun x => k))
  (at level 100, c at next level, right associativity).
Notation "c ;; k" := (bind c (fun _ => k))
  (at level 100, right associativity).

(** [np.zeros], [x - x[i]] and the like: a new array at a fresh location. *)
Definition alloc (o : obj) : M loc :=
  fun s => (s ++ [o], Ok (length s)).

Definition load_farr (l : loc) : M (list Q) :=
  fun s =>
    match s !! l with
    | Some (FArr a) => (s, Ok a)
    | _ => (s, Raise TypeError)
    end.

Definition load_imat (l : loc) : M (list (list Z)) :=
  fun s =>
    match s !! l with
    | Some (IMat m) => (s, Ok m)
    | _ => (s, Raise TypeError)
    end.

Definition load_iarr (l : loc) : M (list Z) :=
  fun s =>
    match s !! l with
    | Some (IArr a) => (s, Ok a)
    | _ => (s, Raise TypeError)
    end.

(** An update in place of the array at [l]. *)
Definition put (l : loc) (o : obj) : M unit :=
  fun s => (<[l := o]> s, Ok tt).

(** [a[i]] on a 1-D array, for [0 <= i]. *)
Definition getitem {A} (a : list A) (i : nat) : M A :=
  match a !! i with
  | Some v => ret v
  | None => raise IndexError
  end.

(** [a[idx]] with an index array. *)
Fixpoint take_idx {A} (a : list A) (idx : list nat) : M (list A) :=
  match idx with
  | [] => ret []
  | i :: idx' => v <- getitem a i ;; vs <- take_idx a idx' ;; ret (v :: vs)
  end.

(** Reading a local variable that may not have been assigned. *)
Definition read_var {A} (v : option A) : M A :=
  match v with
  | Some a => ret a
  | None => raise UnboundLocalError
  end.

(** [for i in l: body] *)
Fixpoint for_ {A} (l : list A) (body : A -> M unit) : M unit :=
  match l with
  | [] => ret tt
  | i :: l' => body i ;; for_ l' body
  end.

(** [assert v] on an optional number: [None] and zero are falsy. *)
Definition assert_num (v : option Q) : M Q :=
  match v with
  | Some q => if Qeq_bool q 0 then raise AssertionError else ret q
  | None => raise AssertionError
  end.

(** [assert v] on an optional string: [None] and the empty string are falsy. *)
Definition assert_str (v : option string) : M string :=
  match v with
  | Some EmptyString | None => raise AssertionError
  | Some s => ret s
  end.

(** Python's truth value of an optional number and of an optional string. *)
Definition falsy_num (v : option Q) : bool :=
  match v with
  | Some q => Qeq_bool q 0
  | None => true
  end.

Definition falsy_str (v : option string) : bool :=
  match v with
  | Some EmptyString | None => true
  | Some _ => false
  end.

End Py.

(** ** NumPy array functions used by [test]

    Modelled on the arrays of the store, from NumPy's documented
    behaviour. *)

Module Np.
Import Num Py.
Local Open Scope Q_scope.

Definition Qsum (a : list Q) : Q := foldr Qplus 0 a.
Definition Zsum (a : list Z) : Z := foldr Z.add 0%Z a.

(** [np.sign] on a float, stored into an [int] array. *)
Definition np_sign (v : Q) : Z := Qsign v.

(** [np.where(mask)[0]]: the indices at which the mask holds. *)
Fixpoint where_from (j : nat) (mask : list bool) : list nat :=
  match mask with
  | [] => []
  | b :: mask' =>
      if b then j :: where_from (S j) mask' else where_from (S j) mask'
  end.
Definition np_where (mask : list bool) : list nat := where_from 0 mask.

(** [np.where(m == 0)] on a matrix: the pairs [(i, j)], row by row. *)
Definition np_where2 (m : list (list Z)) : list (nat * nat) :=
  concat (imap (fun i row => map (pair i) (np_where (map (Z.eqb 0) row))) m).

(** [a[np.where(np.fabs(a) < precx)] = 0.]: the array after the update. *)
Definition zero_below (precx : Q) (a : list Q) : list Q :=
  map (fun v => if Qltb (Qabs v) precx then 0 else v) a.

(** [m[np.triu_indices(n, k=1)]]: the entries above the diagonal, row by
    row. *)
Definition triu1 (m : list (list Z)) : list Z :=
  concat (imap (fun i row => drop (S i) row) m).

(** The matrix after [np.fill_diagonal(m, d)]. *)
Definition fill_diagonal (d : Z) (m : list (list Z)) : list (list Z) :=
  imap (fun i row => <[i := d]> row) m.

(** The shape check of [m[i] = row]: a row of the same length, or one
    element that is broadcast. *)
Definition broadcast_row (n : nat) (row : list Z) : M (list Z) :=
  if Nat.eqb (length row) n then ret row
  else match row with
       | [v] => ret (replicate n v)
       | _ => raise ValueError
       end.

(** [m[i] = row] on the matrix at [l]. *)
Definition setrow (l : loc) (i : nat) (row : list Z) : M unit :=
  m <- load_imat l ;;
  r <- getitem m i ;;
  row' <- broadcast_row (length r) row ;;
  put l (IMat (<[i := row']> m)).

(** [a[k] = v] on the [int] array at [l]. *)
Definition setitem (l : loc) (k : nat) (v : Z) : M unit :=
  a <- load_iarr l ;;
  _ <- getitem a k ;;
  put l (IArr (<[k := v]> a)).

(** [np.unique]: the sorted distinct values. *)
Fixpoint insert_unique (v : Q) (a : list Q) : list Q :=
  match a with
  | [] => [v]
  | u :: a' =>
      if Qltb v u then v :: a
      else if Qeq_bool v u then a
      else u :: insert_unique v a'
  end.
Definition np_unique (a : list Q) : list Q := foldr insert_unique [] a.

Section WithLib.
Context {L : NumLib}.

Definition fl_sqrt (a : fl) : fl :=
  match a with
  | Fin v => np_sqrt v
  | PInf => PInf
  | NInf | NaN => NaN
  end.

(** [np.mean]: NaN on an empty array. *)
Definition np_mean (a : list Q) : fl :=
  fl_div (Fin (Qsum a)) (Fin (inject_Z (Z.of_nat (length a)))).

(** The mean of a non-empty array as a rational. *)
Definition meanQ (a : list Q) : Q :=
  Qsum a / inject_Z (Z.of_nat (length a)).

(** [np.std]: [sqrt(mean(abs(a - a.mean())**2))]. *)
Definition np_std (a : list Q) : fl :=
  fl_sqrt (np_mean (map (fun v => Qabs (v - meanQ a) * Qabs (v - meanQ a)) a)).

(** One entry of [np.cov(a, b)]: the products of the deviations from
    the means, summed and divided by [N - 1] (by zero when [N <= 1]). *)
Definition np_cov (a b : list Q) : fl :=
  fl_div
    (Fin (Qsum (zip_with (fun u v => (u - meanQ a) * (v - meanQ b)) a b)))
    (Fin (inject_Z (Z.max 0 (Z.of_nat (length a) - 1)))).

(** [np.corrcoef(a, b)[0, 1]]: the covariance divided by both standard
    deviations and clipped to [[-1, 1]]; arrays of different lengths
    cannot be stacked. *)
Definition np_corrcoef01 (a b : list Q) : M fl :=
  if Nat.eqb (length a) (length b) then
    ret (fl_clip (-1) 1
           (fl_div (fl_div (np_cov a b) (fl_sqrt (np_cov a a)))
                   (fl_sqrt (np_cov b b))))
  else raise ValueError.

End WithLib.
End Np.

(** ** The function [test] of [mkt.py] *)

Module Mkt.
Import Num Py Np.
Local Open Scope Q_scope.
Local Open Scope string_scope.

Section WithLib.
Context {L : NumLib}.

(** The body of the first loop: row [i] of the sign matrix.
[[
        tmp = x - x[i]
        tmp[np.where(np.fabs(tmp) < precx)] = 0.
        sgn[i] = np.sign(tmp)
]] *)
Definition sgn_body (x sgn : loc) (precx : Q) (i : nat) : M unit :=
  xv <- load_farr x ;;
  xi <- getitem xv i ;;
  tmp <- alloc (FArr (map (fun v => v - xi) xv)) ;;
  a <- load_farr tmp ;;
  put tmp (FArr (zero_below precx a)) ;;
  a' <- load_farr tmp ;;
  setrow sgn i (map np_sign a').

(** The body of the second loop: the size of tie group [k].
[[
        idx =  np.where(np.fabs(x - ties[k]) < precx)[0]
        q[k] = len(idx)
]] *)
Definition q_body (x q : loc) (ties : list Q) (precx : Q) (k : nat) : M unit :=
  xv <- load_farr x ;;
  tk <- getitem ties k ;;
  let idx := np_where (map (fun v => Qltb (Qabs (v - tk)) precx) xv) in
  setitem q k (Z.of_nat (length idx)).

Definition term1 (n : nat) : Z :=
  (Z.of_nat n * (Z.of_nat n - 1) * (2 * Z.of_nat n + 5))%Z.

Definition term2 (q : list Z) : Z :=
  Zsum (map (fun qk => (qk * (qk - 1) * (2 * qk + 5))%Z) q).

Definition varS (n : nat) (q : list Z) : Q :=
  inject_Z (term1 n - term2 q) / 18.

(** The Z-score; [None] when no branch assigns [Zmk].
[[
    if (S - precx) > 0.:
        Zmk = (S - 1) / np.sqrt(varS)
    elif (S - precx) == 0.:
        Zmk = 0.
    elif (S + precx) < 0.:
        Zmk = (S + 1) / np.sqrt(varS)
]] *)
Definition Zmk (S : Z) (precx vS : Q) : option fl :=
  if Qltb 0 (inject_Z S - precx) then
    Some (fl_div (Fin (inject_Z (S - 1))) (np_sqrt vS))
  else if Qeq_bool (inject_Z S - precx) 0 then
    Some (Fin 0)
  else if Qltb (inject_Z S + precx) 0 then
    Some (fl_div (Fin (inject_Z (S + 1))) (np_sqrt vS))
  else None.

(** The verdict; [None] when no branch assigns [MK]. Reading [Zmk]
    raises when it was not assigned. *)
Definition MK (Ha : string) (alpha : Q) (zmk : option fl) : M (option string) :=
  if String.eqb Ha "up" then
    let Z_ := ndtri (1 - alpha) in
    z <- read_var zmk ;;
    if fl_geb z Z_ then ret (Some "accept Ha := upward trend")
    else ret (Some "reject Ha := upward trend")
  else if String.eqb Ha "down" then
    let Z_ := ndtri (1 - alpha) in
    z <- read_var zmk ;;
    if fl_leb z (fl_neg Z_) then ret (Some "accept Ha := downward trend")
    else ret (Some "reject Ha := downward trend")
  else if String.eqb Ha "upordown" then
    let Z_ := ndtri (1 - alpha / 2) in
    z <- read_var zmk ;;
    if fl_geb (fl_abs z) Z_ then
      ret (Some "accept Ha := upward OR downward trend")
    else ret (Some "reject Ha := upward OR downward trend")
  else ret None.

(** The p-value. The variable [p] already holds [len(ties)], here [p0],
    and keeps it when no branch assigns it. *)
Definition pvalue (Ha : string) (S : Z) (precx : Q) (zmk : option fl)
    (p0 : fl) : M fl :=
  if Qltb 0 (inject_Z S - precx) then
    if String.eqb Ha "up" then
      z <- read_var zmk ;; ret (fl_sub (Fin 1) (ndtr z))
    else if String.eqb Ha "down" then
      z <- read_var zmk ;; ret (ndtr z)
    else if String.eqb Ha "upordown" then
      z <- read_var zmk ;; ret (fl_mul (Fin (1 # 2)) (fl_sub (Fin 1) (ndtr z)))
    else ret p0
  else if Qeq_bool (inject_Z S - precx) 0 then
    ret (Fin (1 # 2))
  else if Qltb (inject_Z S + precx) 0 then
    if String.eqb Ha "up" then
      z <- read_var zmk ;; ret (fl_sub (Fin 1) (ndtr z))
    else if String.eqb Ha "down" then
      z <- read_var zmk ;; ret (ndtr z)
    else if String.eqb Ha "upordown" then
      z <- read_var zmk ;; ret (fl_mul (Fin (1 # 2)) (ndtr z))
    else ret p0
  else ret p0.

(** The slope [m] and the intercept [c] of the linear fit.
[[
    m = np.corrcoef(t, x)[0, 1] * (np.std(x) / np.std(t))
    c = np.mean(x) - m * np.mean(t)
]] *)
Definition slope (tv xv : list Q) : M fl :=
  r <- np_corrcoef01 tv xv ;;
  ret (fl_mul r (fl_div (np_std xv) (np_std tv))).

Definition intercept (tv xv : list Q) (m : fl) : fl :=
  fl_sub (np_mean xv) (fl_mul m (np_mean tv)).

(** The value that [test] returns: [(MK, m, c, p)]. *)
Record result : Type := Result {
  r_MK : string;
  r_m : fl;
  r_c : fl;
  r_p : fl
}.

(** The sign matrix: [n] and the location of [sgn].
[[
    n = len(t)
    sgn = np.zeros((n, n), dtype="int")
    for i in range(n):
        ...
]] *)
Definition sign_matrix (t x : loc) (precx : Q) : M (nat * loc) :=
  tv <- load_farr t ;;
  let n := length tv in
  sgn <- alloc (IMat (replicate n (replicate n 0%Z))) ;;
  for_ (seq 0 n) (sgn_body x sgn precx) ;;
  ret (n, sgn).

(** [S = sgn[np.triu_indices(n, k=1)].sum()] *)
Definition stat_S (sgn : loc) : M Z :=
  sg <- load_imat sgn ;;
  ret (Zsum (triu1 sg)).

(** The tie groups: their number [p] and their sizes [q].
[[
    np.fill_diagonal(sgn, precx * 1E6)
    i, j = np.where(sgn == 0.)
    ties = np.unique(x[i])
    p = len(ties)
    q = np.zeros(len(ties), dtype="int")
    for k in range(p):
        ...
]] *)
Definition tie_groups (x sgn : loc) (precx : Q) : M (nat * list Z) :=
  sg <- load_imat sgn ;;
  put sgn (IMat (fill_diagonal (int64_of_float (precx * 1000000)) sg)) ;;
  sg <- load_imat sgn ;;
  let i := map fst (np_where2 sg) in
  xv <- load_farr x ;;
  xi <- take_idx xv i ;;
  let ties := np_unique xi in
  let p := length ties in
  q <- alloc (IArr (replicate (length ties) 0%Z)) ;;
  for_ (seq 0 p) (q_body x q ties precx) ;;
  qv <- load_iarr q ;;
  ret (p, qv).

(** Everything after the variance: verdict, linear fit and p-value. *)
Definition decide (t x : loc) (n : nat) (S : Z) (p : nat) (q : list Z)
    (precx alpha : Q) (Ha : string) : M result :=
  let vS := varS n q in
  let zmk := Zmk S precx vS in
  mk <- MK Ha alpha zmk ;;
  tv <- load_farr t ;;
  xv <- load_farr x ;;
  m <- slope tv xv ;;
  let c := intercept tv xv m in
  p <- pvalue Ha S precx zmk (Fin (inject_Z (Z.of_nat p))) ;;
  mk <- read_var mk ;;
  ret (Result mk m c p).

(** [test(t, x, precx, alpha, Ha)]; [t] and [x] are the locations of the
    caller's arrays, and an argument that is not given is [None]. The
    body is the body of the source in its order: the three assertions,
    then the blocks [sign_matrix] (lines 123-128), [stat_S] (131),
    [tie_groups] (135-142) and [decide] (144-211). *)
Definition test (t x : loc) (precx alpha : option Q) (Ha : option string)
    : M result :=
  precx <- assert_num precx ;;
  alpha <- assert_num alpha ;;
  Ha <- assert_str Ha ;;
  ns <- sign_matrix t x precx ;;
  let '(n, sgn) := ns in
  S <- stat_S sgn ;;
  pq <- tie_groups x sgn precx ;;
  let '(p, q) := pq in
  decide t x n S p q precx alpha Ha.

End WithLib.
End Mkt.

(** ** What the phases of [test] compute, as functions of the array [x]

    These are not translations of the code: the lemmas [sign_matrix_run],
    [stat_S_run] and [tie_groups_run] below prove that the loops of
    [test] compute them, and the properties of [test] are derived from
    them. *)

Module Fun.
Import Num Py Np Mkt.
Local Open Scope Q_scope.

(** The sign of a difference [d], zero when [|d| < precx]. *)
Definition sgn1 (precx d : Q) : Z :=
  np_sign (if Qltb (Qabs d) precx then 0 else d).

(** Row [i] of [sgn], where [xi = x[i]]. *)
Definition sgn_row (precx : Q) (xv : list Q) (xi : Q) : list Z :=
  map (fun v => sgn1 precx (v - xi)) xv.

Definition sgn_of (precx : Q) (xv : list Q) : list (list Z) :=
  map (sgn_row precx xv) xv.

(** The array [tmp] of iteration [i] after its update. *)
Definition tmp_of (precx : Q) (xv : list Q) (xi : Q) : obj :=
  FArr (zero_below precx (map (fun v => v - xi) xv)).

(** The sum over the pairs [i < j]. *)
Fixpoint pair_sum (precx : Q) (xv : list Q) : Z :=
  match xv with
  | [] => 0%Z
  | xi :: r => (Zsum (map (fun v => sgn1 precx (v - xi)) r) + pair_sum precx r)%Z
  end.

Definition S_of (precx : Q) (xv : list Q) : Z := Zsum (triu1 (sgn_of precx xv)).

(** [sgn] after [np.fill_diagonal]. *)
Definition marked_of (precx : Q) (xv : list Q) : list (list Z) :=
  fill_diagonal (int64_of_float (precx * 1000000)) (sgn_of precx xv).

(** [x[i]] for the zero entries [(i, j)] of the marked matrix. *)
Definition tie_values (precx : Q) (xv : list Q) : list Q :=
  omap (fun i => xv !! i) (map fst (np_where2 (marked_of precx xv))).

Definition ties_of (precx : Q) (xv : list Q) : list Q :=
  np_unique (tie_values precx xv).

(** [len(idx)] for the tie value [tk]. *)
Definition group_size (precx : Q) (xv : list Q) (tk : Q) : Z :=
  Z.of_nat (length (np_where (map (fun v => Qltb (Qabs (v - tk)) precx) xv))).

Definition q_of (precx : Q) (xv : list Q) : list Z :=
  map (group_size precx xv) (ties_of precx xv).

Definition varS_of (precx : Q) (xv : list Q) : Q :=
  varS (length xv) (q_of precx xv).


(** [sub] occurs in [s]. *)
Fixpoint contains (sub s : string) : bool :=
  (String.prefix sub s ||
   match s with
   | EmptyString => false
   | String _ s' => contains sub s'
   end)%bool.

(** How a verdict names the alternative. *)
Definition alt_phrase (Ha : string) : string :=
  if String.eqb Ha "up" then "upward trend"
  else if String.eqb Ha "down" then "downward trend"
  else "upward OR downward trend".


(** *** The vocabulary of the properties *)

(** The outcome of a computation that does not depend on the store. *)
Definition out {A} (c : M A) : outcome A := snd (c []).

Section WithLib.
Context {L : NumLib}.

(** The outcome of [decide] from the outcomes of its parts. *)
Definition decide_out (tv xv : list Q) (S : Z) (p : nat) (vS : Q)
    (precx alpha : Q) (Ha : string) : outcome result :=
  let zmk := Zmk S precx vS in
  match out (MK Ha alpha zmk) with
  | Raise e => Raise e
  | Ok mk =>
      match out (slope tv xv) with
      | Raise e => Raise e
      | Ok m =>
          match out (pvalue Ha S precx zmk (Fin (inject_Z (Z.of_nat p)))) with
          | Raise e => Raise e
          | Ok pv =>
              match mk with
              | None => Raise UnboundLocalError
              | Some mk => Ok (Result mk m (intercept tv xv m) pv)
              end
          end
      end
  end.

End WithLib.

(** The part of the store that a call adds. *)
Definition ext_of (precx : Q) (xv : list Q) : store :=
  IMat (marked_of precx xv) :: map (tmp_of precx xv) xv ++ [IArr (q_of precx xv)].

(** From any store that extends [s0], the computation [c] leaves [s0] as
    it is, and a value it returns satisfies [Q]. *)
Definition extends {A} (s0 : store) (c : M A) (Q : A -> Prop) : Prop :=
  forall e : store,
    (exists e' : store, fst (c (s0 ++ e)) = s0 ++ e') /\
    (forall a, snd (c (s0 ++ e)) = Ok a -> Q a).

(** [R xi xj] for every pair of positions [i < j]. *)
Fixpoint pairwise (R : Q -> Q -> Prop) (xv : list Q) : Prop :=
  match xv with
  | [] => True
  | xi :: r => Forall (R xi) r /\ pairwise R r
  end.

Inductive direction : Type := Increasing | Decreasing.

(** The series is strictly monotone and the tolerance is smaller than
    every difference [x[j] - x[i]], [i < j]. *)
Definition monotone (d : direction) (precx : Q) (xv : list Q) : Prop :=
  match d with
  | Increasing => pairwise (fun xi xj => xi < xj /\ precx < xj - xi) xv
  | Decreasing => pairwise (fun xi xj => xj < xi /\ precx < xi - xj) xv
  end.

Definition dir_sign (d : direction) : Z :=
  match d with Increasing => 1%Z | Decreasing => (-1)%Z end.

(** Every pair of values differs by less than the tolerance. *)
Definition all_tied (precx : Q) (xv : list Q) : Prop :=
  pairwise (fun xi xj => Qabs (xj - xi) < precx) xv.

(** The alternatives that [test] knows. *)
Definition recognized (Ha : string) : Prop :=
  Ha = "up"%string \/ Ha = "down"%string \/ Ha = "upordown"%string.

End Fun.

(** ** A concrete instance of the numeric library, and example inputs *)

Module Demo.
Import Num Py Np Mkt Fun.
Local Open Scope Q_scope.

(** The square root rounded down to a multiple of the denominator:
    exact on the squares of rationals. *)
Definition sqrt_floor (v : Q) : Q :=
  let r := Qred v in Z.sqrt (Qnum r * Zpos (Qden r)) # Qden r.

#[local] Program Instance demo_lib : NumLib := {|
  sqrtQ := sqrt_floor;
  Phi := sigmoid;
  PhiInv := sigmoid_inv
|}.
Next Obligation.
  intros p q H. unfold sqrt_floor. now rewrite (Qred_complete _ _ H).
Qed.
Next Obligation. intros p q H. unfold sigmoid. now rewrite H. Qed.
Next Obligation. intros p q H. unfold sigmoid_inv. now rewrite H. Qed.
Next Obligation. reflexivity. Qed.
Next Obligation.
  intros v Hv. rewrite <- (Qred_correct v) in Hv. unfold sqrt_floor.
  destruct (Qred v) as [a d]. unfold Qlt in *. simpl in *.
  rewrite Z.mul_1_r in *. apply Z.sqrt_pos. lia.
Qed.
Next Obligation.
  intros z. unfold sigmoid.
  assert (Ha : 0 <= Qabs z) by apply Qabs_nonneg.
  assert (Hz : - Qabs z <= z <= Qabs z).
  { apply Qabs_Qle_condition. apply Qle_refl. }
  assert (Hd : 0 < 2 * (1 + Qabs z)) by lra.
  assert (Hu : z / (2 * (1 + Qabs z)) <= 1 # 2).
  { apply Qle_shift_div_r; [exact Hd|]. lra. }
  assert (Hl : - (1 # 2) <= z / (2 * (1 + Qabs z))).
  { apply Qle_shift_div_l; [exact Hd|]. lra. }
  lra.
Qed.

(** The caller's store of the examples: [t] at location 0, [x] at 1. *)
Definition caller (tv xv : list Q) : store := [FArr tv; FArr xv].

(** The series of the failing input: each value is tied with its
    neighbours only, so the tie groups overlap: [q = [2; 3; 3; 2]],
    [term2 = 168 > term1 = 156] and [varS = -2/3]. *)
Definition overlapping : list Q := [0; 3 # 4; 3 # 2; 9 # 4].

End Demo.

(** ** Vocabulary of the further properties *)

Module Vocab.
Import Num Py Np Mkt Fun.
Local Open Scope Q_scope.

(** The exception of a call on a non-empty [t] and an [x] of another
    length: [x[i]] fails on an [x] of at most one element, the
    assignment of the row on a longer one. *)
Definition mismatch_exn (xv : list Q) : exn :=
  if Nat.leb (length xv) 1 then IndexError else ValueError.


(** Two values are equal or at least the tolerance apart: the ties of
    data on a grid coarser than the tolerance. *)
Definition separated (precx : Q) (xv : list Q) : Prop :=
  pairwise (fun xi xj => xi == xj \/ precx <= Qabs (xj - xi)) xv.

(** The term of one tie group in [term2]. *)
Definition fq (q : Z) : Z := (q * (q - 1) * (2 * q + 5))%Z.

(** The number of elements that satisfy [p]. *)
Definition countb (p : Q -> bool) (l : list Q) : nat :=
  length (List.filter p l).

(** The series with [c] added to every measurement. *)
Definition shift (c : Q) (xv : list Q) : list Q := map (fun v => v + c) xv.

End Vocab.

(** * Proofs *)

(** ** The loops of [test] compute the functional description *)

Module Run.
Import Num Py Np Mkt Fun.
Local Open Scope Q_scope.

(** *** Running the monad *)

Lemma bind_ok {A B} (c : M A) (k : A -> M B) s s' a :
  c s = (s', Ok a) -> bind c k s = k a s'.
Proof. intros H. unfold bind. now rewrite H. Qed.

Lemma bind_raise {A B} (c : M A) (k : A -> M B) s s' e :
  c s = (s', Raise e) -> bind c k s = (s', Raise e).
Proof. intros H. unfold bind. now rewrite H. Qed.

Lemma load_farr_ok (s : store) l a :
  s !! l = Some (FArr a) -> load_farr l s = (s, Ok a).
Proof. intros H. unfold load_farr. now rewrite H. Qed.

Lemma load_imat_ok (s : store) l m :
  s !! l = Some (IMat m) -> load_imat l s = (s, Ok m).
Proof. intros H. unfold load_imat. now rewrite H. Qed.

Lemma load_iarr_ok (s : store) l a :
  s !! l = Some (IArr a) -> load_iarr l s = (s, Ok a).
Proof. intros H. unfold load_iarr. now rewrite H. Qed.

Lemma getitem_ok {A} (a : list A) i v (s : store) :
  a !! i = Some v -> getitem a i s = (s, Ok v).
Proof. intros H. unfold getitem. now rewrite H. Qed.

Lemma lookup_mid (s e : store) o : (s ++ o :: e) !! length s = Some o.
Proof. apply list_lookup_middle. reflexivity. Qed.

Lemma insert_mid (s e : store) o o' :
  <[length s := o']> (s ++ o :: e) = s ++ o' :: e.
Proof.
  rewrite insert_app_r_alt by lia. now rewrite Nat.sub_diag.
Qed.

Lemma put_mid (s e : store) o o' :
  put (length s) o' (s ++ o :: e) = (s ++ o' :: e, Ok tt).
Proof. unfold put. now rewrite insert_mid. Qed.

(** *** The first loop computes the sign matrix *)

Section Loop1.
Context (s : store) (x : loc) (xv : list Q) (precx : Q).
Hypothesis Hx : s !! x = Some (FArr xv).

Lemma sgn_row_tmp xi :
  map np_sign (zero_below precx (map (fun v => v - xi) xv)) = sgn_row precx xv xi.
Proof.
  unfold sgn_row, zero_below, sgn1. rewrite !map_map. reflexivity.
Qed.

Lemma sgn_body_run i xi m e r :
  xv !! i = Some xi -> m !! i = Some r -> length r = length xv ->
  sgn_body x (length s) precx i (s ++ IMat m :: e) =
  (s ++ IMat (<[i := sgn_row precx xv xi]> m) :: e ++ [tmp_of precx xv xi], Ok tt).
Proof using Hx.
  intros Hi Hr Hlen. unfold sgn_body.
  erewrite bind_ok by (apply load_farr_ok, lookup_app_l_Some, Hx).
  erewrite bind_ok by (apply getitem_ok, Hi).
  erewrite bind_ok by reflexivity.
  erewrite bind_ok by (apply load_farr_ok, list_lookup_middle; reflexivity).
  erewrite bind_ok by reflexivity.
  rewrite insert_app_r_alt by lia. rewrite Nat.sub_diag. simpl insert.
  erewrite bind_ok by (apply load_farr_ok, list_lookup_middle; reflexivity).
  unfold setrow. rewrite <- app_assoc. simpl.
  erewrite bind_ok by (apply load_imat_ok, lookup_mid).
  erewrite bind_ok by (apply getitem_ok, Hr).
  rewrite sgn_row_tmp.
  erewrite bind_ok.
  2:{ unfold broadcast_row, sgn_row. rewrite length_map, Hlen, Nat.eqb_refl.
      reflexivity. }
  apply put_mid.
Qed.

Lemma loop1_run (rest pre : list Q) m e :
  xv = pre ++ rest -> length m = length xv ->
  Forall (fun r => length r = length xv) m ->
  for_ (seq (length pre) (length rest)) (sgn_body x (length s) precx)
       (s ++ IMat m :: e) =
  (s ++ IMat (take (length pre) m ++ map (sgn_row precx xv) rest)
     :: e ++ map (tmp_of precx xv) rest, Ok tt).
Proof using Hx.
  revert pre m e. induction rest as [|xi rest IH]; intros pre m e Hxv Hm Hrows.
  - simpl. rewrite !app_nil_r. rewrite take_ge; [reflexivity|].
    rewrite Hm, Hxv, app_nil_r. lia.
  - simpl for_.
    assert (Hi : xv !! length pre = Some xi).
    { rewrite Hxv. apply list_lookup_middle. reflexivity. }
    assert (Hlt : (length pre < length m)%nat).
    { rewrite Hm. apply lookup_lt_Some in Hi. exact Hi. }
    destruct (lookup_lt_is_Some_2 m (length pre) Hlt) as [r Hr].
    assert (Hlr : length r = length xv).
    { rewrite Forall_forall in Hrows. apply Hrows.
      apply list_elem_of_lookup. eauto. }
    rewrite (bind_ok _ _ _ _ _ (sgn_body_run _ _ _ _ _ Hi Hr Hlr)).
    specialize (IH (pre ++ [xi]) (<[length pre := sgn_row precx xv xi]> m)
                  (e ++ [tmp_of precx xv xi])).
    rewrite length_app in IH. simpl in IH.
    replace (length pre + 1)%nat with (S (length pre)) in IH by lia.
    rewrite IH.
    + f_equal. f_equal. f_equal.
      * rewrite (take_S_r _ _ (sgn_row precx xv xi)).
        2:{ apply list_lookup_insert_eq. exact Hlt. }
        rewrite take_insert_ge by lia. now rewrite <- app_assoc.
      * now rewrite <- app_assoc.
    + rewrite <- app_assoc. exact Hxv.
    + now rewrite length_insert.
    + apply Forall_insert; [exact Hrows|].
      unfold sgn_row. now rewrite length_map.
Qed.

End Loop1.

Lemma sign_matrix_run (s : store) t x tv xv precx :
  s !! t = Some (FArr tv) -> s !! x = Some (FArr xv) ->
  length xv = length tv ->
  sign_matrix t x precx s =
  (s ++ IMat (sgn_of precx xv) :: map (tmp_of precx xv) xv,
   Ok (length tv, length s)).
Proof.
  intros Ht Hx Hlen. unfold sign_matrix.
  erewrite bind_ok by (apply load_farr_ok, Ht).
  erewrite bind_ok by reflexivity.
  rewrite <- Hlen.
  erewrite bind_ok.
  2:{ apply (loop1_run s x xv precx Hx xv [] _ []); [reflexivity| |].
      - now rewrite length_replicate.
      - apply Forall_forall. intros r Hr.
        apply elem_of_replicate_inv in Hr. subst r.
        now rewrite length_replicate. }
  reflexivity.
Qed.

Lemma stat_S_run (s e : store) m :
  stat_S (length s) (s ++ IMat m :: e) = (s ++ IMat m :: e, Ok (Zsum (triu1 m))).
Proof.
  unfold stat_S. erewrite bind_ok by (apply load_imat_ok, lookup_mid).
  reflexivity.
Qed.

(** *** The second loop computes the sizes of the tie groups *)

Lemma take_idx_run {A} (a : list A) (idx : list nat) (s : store) :
  Forall (fun i => (i < length a)%nat) idx ->
  take_idx a idx s = (s, Ok (omap (fun i => a !! i) idx)).
Proof.
  induction 1 as [|i idx Hi _ IH]; [reflexivity|].
  simpl take_idx. destruct (lookup_lt_is_Some_2 a i Hi) as [v Hv].
  erewrite bind_ok by (apply getitem_ok, Hv).
  erewrite bind_ok by apply IH.
  simpl. now rewrite Hv.
Qed.

Lemma np_where2_rows (m : list (list Z)) i j :
  (i, j) ∈ np_where2 m -> (i < length m)%nat.
Proof.
  unfold np_where2. intros H.
  apply list_elem_of_In, in_concat in H as (l & Hl & Hij).
  apply list_elem_of_In, elem_of_lookup_imap in Hl as (i' & row & -> & Hrow).
  apply in_map_iff in Hij as (j' & Heq & _).
  inversion Heq; subst. now apply lookup_lt_Some in Hrow.
Qed.

Section Loop2.
Context (s : store) (x : loc) (xv : list Q) (precx : Q) (ties : list Q).
Hypothesis Hx : s !! x = Some (FArr xv).

Lemma q_body_run k tk qv :
  ties !! k = Some tk -> (k < length qv)%nat ->
  q_body x (length s) ties precx k (s ++ [IArr qv]) =
  (s ++ [IArr (<[k := group_size precx xv tk]> qv)], Ok tt).
Proof using Hx.
  intros Hk Hlt. unfold q_body.
  erewrite bind_ok by (apply load_farr_ok, lookup_app_l_Some, Hx).
  erewrite bind_ok by (apply getitem_ok, Hk).
  unfold setitem.
  erewrite bind_ok by (apply load_iarr_ok, lookup_mid).
  destruct (lookup_lt_is_Some_2 qv k Hlt) as [v Hv].
  erewrite bind_ok by (apply getitem_ok, Hv).
  apply put_mid.
Qed.

Lemma loop2_run (rest pre : list Q) qv :
  ties = pre ++ rest -> length qv = length ties ->
  for_ (seq (length pre) (length rest)) (q_body x (length s) ties precx)
       (s ++ [IArr qv]) =
  (s ++ [IArr (take (length pre) qv ++ map (group_size precx xv) rest)], Ok tt).
Proof using Hx.
  revert pre qv. induction rest as [|tk rest IH]; intros pre qv Hties Hq.
  - simpl. rewrite app_nil_r. rewrite take_ge; [reflexivity|].
    rewrite Hq, Hties, app_nil_r. lia.
  - simpl for_.
    assert (Hk : ties !! length pre = Some tk).
    { rewrite Hties. apply list_lookup_middle. reflexivity. }
    assert (Hlt : (length pre < length qv)%nat).
    { rewrite Hq. now apply lookup_lt_Some in Hk. }
    erewrite bind_ok by (apply q_body_run; eassumption).
    specialize (IH (pre ++ [tk]) (<[length pre := group_size precx xv tk]> qv)).
    rewrite length_app in IH. simpl in IH.
    replace (length pre + 1)%nat with (S (length pre)) in IH by lia.
    rewrite IH.
    + f_equal. f_equal. f_equal.
      rewrite (take_S_r _ _ (group_size precx xv tk)).
      2:{ apply list_lookup_insert_eq. exact Hlt. }
      rewrite take_insert_ge by lia. now rewrite <- app_assoc.
    + rewrite <- app_assoc. exact Hties.
    + now rewrite length_insert.
Qed.

End Loop2.

Lemma length_fill_diagonal d m : length (fill_diagonal d m) = length m.
Proof. unfold fill_diagonal. apply length_imap. Qed.

Lemma length_sgn_of precx xv : length (sgn_of precx xv) = length xv.
Proof. unfold sgn_of. apply length_map. Qed.

Lemma tie_groups_run (s e : store) x xv precx :
  s !! x = Some (FArr xv) ->
  tie_groups x (length s) precx (s ++ IMat (sgn_of precx xv) :: e) =
  (s ++ IMat (marked_of precx xv) :: e ++ [IArr (q_of precx xv)],
   Ok (length (ties_of precx xv), q_of precx xv)).
Proof.
  intros Hx. unfold tie_groups.
  erewrite bind_ok by (apply load_imat_ok, lookup_mid).
  erewrite bind_ok by apply put_mid.
  erewrite bind_ok by (apply load_imat_ok, lookup_mid).
  erewrite bind_ok by (apply load_farr_ok, lookup_app_l_Some, Hx).
  fold (marked_of precx xv).
  erewrite bind_ok.
  2:{ apply take_idx_run. apply Forall_forall. intros i Hi.
      apply list_elem_of_In, in_map_iff in Hi as ([i' j] & <- & Hij).
      apply list_elem_of_In, np_where2_rows in Hij.
      unfold marked_of in Hij.
      now rewrite length_fill_diagonal, length_sgn_of in Hij. }
  fold (tie_values precx xv). fold (ties_of precx xv).
  erewrite bind_ok by reflexivity.
  change (s ++ IMat (marked_of precx xv) :: e)
    with (s ++ [IMat (marked_of precx xv)] ++ e).
  rewrite !app_assoc.
  erewrite bind_ok.
  2:{ apply (loop2_run _ x xv precx (ties_of precx xv)) with (pre := []).
      - apply lookup_app_l_Some, lookup_app_l_Some, Hx.
      - reflexivity.
      - apply length_replicate. }
  erewrite bind_ok by (apply load_iarr_ok, lookup_mid).
  simpl. rewrite <- !app_assoc. reflexivity.
Qed.

End Run.
Module Whole.
Import Num Py Np Mkt Fun Run.
Local Open Scope Q_scope.

(** *** The phases after the loops leave the store alone *)

Section WithLib.
Context {L : NumLib}.

Lemma MK_run Ha alpha z (s : store) :
  MK Ha alpha z s = (s, out (MK Ha alpha z)).
Proof.
  unfold out, MK, bind, read_var, ret, raise.
  repeat match goal with
         | |- context [if ?b then _ else _] => destruct b
         | |- context [match ?o with Some _ => _ | None => _ end] => destruct o
         end; reflexivity.
Qed.

Lemma pvalue_run Ha S precx z p0 (s : store) :
  pvalue Ha S precx z p0 s = (s, out (pvalue Ha S precx z p0)).
Proof.
  unfold out, pvalue, bind, read_var, ret, raise.
  repeat match goal with
         | |- context [if ?b then _ else _] => destruct b
         | |- context [match ?o with Some _ => _ | None => _ end] => destruct o
         end; reflexivity.
Qed.

Lemma slope_run tv xv (s : store) :
  slope tv xv s = (s, out (slope tv xv)).
Proof.
  unfold out, slope, np_corrcoef01, bind, ret, raise.
  destruct (Nat.eqb _ _); reflexivity.
Qed.

Lemma decide_run (s : store) t x tv xv n S p q precx alpha Ha :
  s !! t = Some (FArr tv) -> s !! x = Some (FArr xv) ->
  decide t x n S p q precx alpha Ha s =
  (s, decide_out tv xv S p (varS n q) precx alpha Ha).
Proof.
  intros Ht Hx. unfold decide, decide_out.
  unfold bind at 1. rewrite MK_run.
  destruct (out (MK _ _ _)) as [mk|e]; [|reflexivity].
  erewrite bind_ok by (apply load_farr_ok, Ht).
  erewrite bind_ok by (apply load_farr_ok, Hx).
  unfold bind at 1. rewrite slope_run.
  destruct (out (slope _ _)) as [m|e]; [|reflexivity].
  unfold bind at 1. rewrite pvalue_run.
  destruct (out (pvalue _ _ _ _ _)) as [pv|e]; [|reflexivity].
  destruct mk; reflexivity.
Qed.

(** A call whose arguments pass the assertions, on arrays of one length. *)
Theorem test_run (s : store) t x tv xv precx alpha Ha :
  s !! t = Some (FArr tv) -> s !! x = Some (FArr xv) ->
  length xv = length tv ->
  Qeq_bool precx 0 = false -> Qeq_bool alpha 0 = false -> Ha <> EmptyString ->
  test t x (Some precx) (Some alpha) (Some Ha) s =
  (s ++ ext_of precx xv,
   decide_out tv xv (S_of precx xv) (length (ties_of precx xv))
     (varS_of precx xv) precx alpha Ha).
Proof.
  intros Ht Hx Hlen Hp Ha0 Hne. unfold test.
  erewrite bind_ok by (unfold assert_num; rewrite Hp; reflexivity).
  erewrite bind_ok by (unfold assert_num; rewrite Ha0; reflexivity).
  erewrite bind_ok by (unfold assert_str; destruct Ha; [congruence|reflexivity]).
  erewrite bind_ok by (eapply sign_matrix_run; eassumption).
  cbv beta iota.
  erewrite bind_ok by apply stat_S_run.
  erewrite bind_ok by (apply tie_groups_run, Hx).
  cbv beta iota. fold (S_of precx xv).
  rewrite (decide_run _ t x tv xv).
  - unfold varS_of, ext_of. now rewrite Hlen.
  - apply lookup_app_l_Some, Ht.
  - apply lookup_app_l_Some, Hx.
Qed.

End WithLib.
End Whole.

(** ** The caller's arrays: every update goes to an array of the call *)

Module Frame.
Import Num Py Np Mkt Fun Run Whole.
Local Open Scope Q_scope.

Section Rules.
Context (s0 : store).

Lemma ext_ret {A} (a : A) (Q : A -> Prop) : Q a -> extends s0 (ret a) Q.
Proof. intros H e; split; [now exists e|]. simpl. now intros ? [= <-]. Qed.

Lemma ext_raise {A} (ex : exn) (Q : A -> Prop) : extends s0 (raise ex) Q.
Proof. intros e; split; [now exists e|]. simpl. discriminate. Qed.

Lemma ext_bind {A B} (c : M A) (k : A -> M B) Q R :
  extends s0 c Q -> (forall a, Q a -> extends s0 (k a) R) ->
  extends s0 (bind c k) R.
Proof.
  intros Hc Hk e. destruct (Hc e) as [[e1 He1] Hq]. unfold bind.
  destruct (c (s0 ++ e)) as [s1 [a|ex]]; simpl in *; subst s1.
  - apply Hk. now apply Hq.
  - split; [now exists e1|discriminate].
Qed.

Lemma ext_weaken {A} (c : M A) (Q R : A -> Prop) :
  extends s0 c Q -> (forall a, Q a -> R a) -> extends s0 c R.
Proof.
  intros Hc HQR e. destruct (Hc e) as [He Hq]. split; [exact He|].
  intros a Ha. now apply HQR, Hq.
Qed.

(** A computation that returns the store it was given. *)
Lemma ext_reads {A} (c : M A) :
  (forall s : store, fst (c s) = s) -> extends s0 c (fun _ => True).
Proof. intros H e. rewrite H. split; [now exists e|trivial]. Qed.

Lemma ext_alloc o : extends s0 (alloc o) (fun l => (length s0 <= l)%nat).
Proof.
  intros e. unfold alloc. simpl. split.
  - exists (e ++ [o]). now rewrite app_assoc.
  - intros a [= <-]. rewrite length_app. lia.
Qed.

Lemma ext_put l o :
  (length s0 <= l)%nat -> extends s0 (put l o) (fun _ => True).
Proof.
  intros Hl e. unfold put. simpl. split; [|trivial].
  rewrite insert_app_r_alt by exact Hl. eauto.
Qed.

Lemma ext_for {A} (l : list A) (body : A -> M unit) :
  (forall i, extends s0 (body i) (fun _ => True)) ->
  extends s0 (for_ l body) (fun _ => True).
Proof.
  intros Hb. induction l as [|i l IH]; simpl.
  - now apply ext_ret.
  - eapply ext_bind; [apply Hb|]. intros _ _. exact IH.
Qed.

Lemma load_farr_reads l (s : store) : fst (load_farr l s) = s.
Proof. unfold load_farr. now destruct (s !! l) as [[]|]. Qed.

Lemma load_imat_reads l (s : store) : fst (load_imat l s) = s.
Proof. unfold load_imat. now destruct (s !! l) as [[]|]. Qed.

Lemma load_iarr_reads l (s : store) : fst (load_iarr l s) = s.
Proof. unfold load_iarr. now destruct (s !! l) as [[]|]. Qed.

Lemma getitem_reads {A} (a : list A) i (s : store) : fst (getitem a i s) = s.
Proof. unfold getitem. now destruct (a !! i). Qed.

Lemma take_idx_reads {A} (a : list A) idx (s : store) :
  fst (take_idx a idx s) = s.
Proof.
  revert s. induction idx as [|i idx IH]; intros s; [reflexivity|].
  simpl. unfold bind, getitem. destruct (a !! i); [|reflexivity].
  simpl. specialize (IH s). destruct (take_idx a idx s) as [s' [vs|ex]];
    simpl in *; now subst.
Qed.

Lemma broadcast_row_reads n row (s : store) : fst (broadcast_row n row s) = s.
Proof.
  unfold broadcast_row. destruct (Nat.eqb _ _); [reflexivity|].
  now destruct row as [|? [|]].
Qed.

Lemma ext_setrow l i row :
  (length s0 <= l)%nat -> extends s0 (setrow l i row) (fun _ => True).
Proof.
  intros Hl. unfold setrow.
  eapply ext_bind; [apply ext_reads, load_imat_reads|]. intros m _.
  eapply ext_bind; [apply ext_reads, getitem_reads|]. intros r _.
  eapply ext_bind; [apply ext_reads, broadcast_row_reads|]. intros row' _.
  now apply ext_put.
Qed.

Lemma ext_setitem l k v :
  (length s0 <= l)%nat -> extends s0 (setitem l k v) (fun _ => True).
Proof.
  intros Hl. unfold setitem.
  eapply ext_bind; [apply ext_reads, load_iarr_reads|]. intros a _.
  eapply ext_bind; [apply ext_reads, getitem_reads|]. intros _ _.
  now apply ext_put.
Qed.

Lemma ext_sgn_body x sgn precx i :
  (length s0 <= sgn)%nat ->
  extends s0 (sgn_body x sgn precx i) (fun _ => True).
Proof.
  intros Hl. unfold sgn_body.
  eapply ext_bind; [apply ext_reads, load_farr_reads|]. intros xv _.
  eapply ext_bind; [apply ext_reads, getitem_reads|]. intros xi _.
  eapply ext_bind; [apply ext_alloc|]. intros tmp Htmp.
  eapply ext_bind; [apply ext_reads, load_farr_reads|]. intros a _.
  eapply ext_bind; [now apply ext_put|]. intros _ _.
  eapply ext_bind; [apply ext_reads, load_farr_reads|]. intros a' _.
  now apply ext_setrow.
Qed.

Lemma ext_q_body x q ties precx k :
  (length s0 <= q)%nat ->
  extends s0 (q_body x q ties precx k) (fun _ => True).
Proof.
  intros Hl. unfold q_body.
  eapply ext_bind; [apply ext_reads, load_farr_reads|]. intros xv _.
  eapply ext_bind; [apply ext_reads, getitem_reads|]. intros tk _.
  now apply ext_setitem.
Qed.

Lemma ext_sign_matrix t x precx :
  extends s0 (sign_matrix t x precx) (fun ns => (length s0 <= snd ns)%nat).
Proof.
  unfold sign_matrix.
  eapply ext_bind; [apply ext_reads, load_farr_reads|]. intros tv _.
  eapply ext_bind; [apply ext_alloc|]. intros sgn Hsgn.
  eapply ext_bind; [apply ext_for; intros i; now apply ext_sgn_body|].
  intros _ _. now apply ext_ret.
Qed.

Lemma ext_stat_S sgn : extends s0 (stat_S sgn) (fun _ => True).
Proof.
  unfold stat_S.
  eapply ext_bind; [apply ext_reads, load_imat_reads|]. intros sg _.
  now apply ext_ret.
Qed.

Lemma ext_tie_groups x sgn precx :
  (length s0 <= sgn)%nat ->
  extends s0 (tie_groups x sgn precx) (fun _ => True).
Proof.
  intros Hl. unfold tie_groups.
  eapply ext_bind; [apply ext_reads, load_imat_reads|]. intros sg _.
  eapply ext_bind; [now apply ext_put|]. intros _ _.
  eapply ext_bind; [apply ext_reads, load_imat_reads|]. intros sg' _.
  eapply ext_bind; [apply ext_reads, load_farr_reads|]. intros xv _.
  eapply ext_bind; [apply ext_reads, take_idx_reads|]. intros xi _.
  eapply ext_bind; [apply ext_alloc|]. intros q Hq.
  eapply ext_bind; [apply ext_for; intros k; now apply ext_q_body|].
  intros _ _.
  eapply ext_bind; [apply ext_reads, load_iarr_reads|]. intros qv _.
  now apply ext_ret.
Qed.

Section WithLib.
Context {L : NumLib}.

Lemma ext_decide t x n S p q precx alpha Ha :
  extends s0 (decide t x n S p q precx alpha Ha) (fun _ => True).
Proof.
  unfold decide.
  eapply ext_bind; [apply ext_reads; intros s; now rewrite MK_run|]. intros mk _.
  eapply ext_bind; [apply ext_reads, load_farr_reads|]. intros tv _.
  eapply ext_bind; [apply ext_reads, load_farr_reads|]. intros xv _.
  eapply ext_bind; [apply ext_reads; intros s; now rewrite slope_run|]. intros m _.
  eapply ext_bind; [apply ext_reads; intros s; now rewrite pvalue_run|]. intros pv _.
  eapply ext_bind; [apply ext_reads; intros s; now destruct mk|]. intros mk' _.
  now apply ext_ret.
Qed.

Lemma ext_test t x precx alpha Ha :
  extends s0 (test t x precx alpha Ha) (fun _ => True).
Proof.
  unfold test.
  eapply ext_bind.
  { apply ext_reads. intros s. unfold assert_num.
    destruct precx as [q|]; [destruct (Qeq_bool q 0)|]; reflexivity. }
  intros precx' _.
  eapply ext_bind.
  { apply ext_reads. intros s. unfold assert_num.
    destruct alpha as [q|]; [destruct (Qeq_bool q 0)|]; reflexivity. }
  intros alpha' _.
  eapply ext_bind.
  { apply ext_reads. intros s. now destruct Ha as [[|]|]. }
  intros Ha' _.
  eapply ext_bind; [apply ext_sign_matrix|]. intros [n sgn] Hsgn. simpl in Hsgn.
  eapply ext_bind; [apply ext_stat_S|]. intros S _.
  eapply ext_bind; [now apply ext_tie_groups|]. intros [p q] _.
  apply ext_decide.
Qed.

(** In particular an array of the caller holds after the call what it
    held before. *)
Lemma test_keeps t x precx alpha Ha (l : loc) (o : obj) :
  s0 !! l = Some o -> fst (test t x precx alpha Ha s0) !! l = Some o.
Proof.
  intros Hl. destruct (ext_test t x precx alpha Ha []) as [[e He] _].
  rewrite app_nil_r in He. rewrite He. now apply lookup_app_l_Some.
Qed.

End WithLib.
End Rules.
End Frame.

(** ** Properties of the statistic *)

Module Stat.
Import Num Py Np Mkt Fun.
Local Open Scope Q_scope.

(** *** Comparisons and signs *)

Lemma Qltb_lt a b : Qltb a b = true <-> a < b.
Proof.
  unfold Qltb. rewrite negb_true_iff, <- not_true_iff_false, Qle_bool_iff.
  split; [apply Qnot_le_lt|apply Qlt_not_le].
Qed.

Lemma Qltb_ge a b : Qltb a b = false <-> b <= a.
Proof.
  unfold Qltb. rewrite negb_false_iff, Qle_bool_iff. reflexivity.
Qed.

#[export] Instance Qltb_proper : Proper (Qeq ==> Qeq ==> eq) Qltb.
Proof. intros a a' Ha b b' Hb. unfold Qltb. now rewrite Ha, Hb. Qed.

Lemma Qsign_pos q : 0 < q -> Qsign q = 1%Z.
Proof.
  unfold Qsign, Qlt. simpl. rewrite Z.mul_1_r. intros H.
  now apply Z.sgn_pos.
Qed.

Lemma Qsign_neg q : q < 0 -> Qsign q = (-1)%Z.
Proof.
  unfold Qsign, Qlt. simpl. rewrite Z.mul_1_r. intros H.
  now apply Z.sgn_neg.
Qed.

Lemma Qsign_zero q : q == 0 -> Qsign q = 0%Z.
Proof.
  unfold Qsign, Qeq. simpl. rewrite Z.mul_1_r. now intros ->.
Qed.

Lemma Qsign_opp q : Qsign (- q) = (- Qsign q)%Z.
Proof. unfold Qsign. simpl. apply Z.sgn_opp. Qed.

#[export] Instance Qsign_proper : Proper (Qeq ==> eq) Qsign.
Proof.
  intros p q Hpq.
  destruct (Q_dec p 0) as [[Hp|Hp]|Hp].
  - rewrite (Qsign_neg p Hp), (Qsign_neg q); [reflexivity|now rewrite <- Hpq].
  - rewrite (Qsign_pos p Hp), (Qsign_pos q); [reflexivity|now rewrite <- Hpq].
  - rewrite (Qsign_zero p Hp), (Qsign_zero q); [reflexivity|now rewrite <- Hpq].
Qed.

#[export] Instance sgn1_proper : Proper (Qeq ==> Qeq ==> eq) sgn1.
Proof.
  intros p p' Hp d d' Hd. unfold sgn1, np_sign.
  rewrite Hp, Hd. destruct (Qltb _ _); [reflexivity|now rewrite Hd].
Qed.

Lemma sgn1_up precx d : 0 < d -> precx <= d -> sgn1 precx d = 1%Z.
Proof.
  intros Hd Hp. unfold sgn1, np_sign.
  replace (Qltb (Qabs d) precx) with false; [now apply Qsign_pos|].
  symmetry. apply Qltb_ge. rewrite Qabs_pos; [exact Hp|now apply Qlt_le_weak].
Qed.

Lemma sgn1_opp precx d : sgn1 precx (- d) = (- sgn1 precx d)%Z.
Proof.
  unfold sgn1, np_sign. rewrite Qabs_opp.
  destruct (Qltb _ _); [reflexivity|apply Qsign_opp].
Qed.

Lemma sgn1_down precx d : d < 0 -> precx <= - d -> sgn1 precx d = (-1)%Z.
Proof.
  intros Hd Hp.
  assert (H : sgn1 precx (- d) = 1%Z) by (apply sgn1_up; [lra|exact Hp]).
  rewrite sgn1_opp in H. lia.
Qed.

(** A difference below the tolerance counts as a tie. *)
Lemma sgn1_tie precx d : Qabs d < precx -> sgn1 precx d = 0%Z.
Proof.
  intros H. unfold sgn1. apply Qltb_lt in H. now rewrite H.
Qed.

(** *** [S] is the sum over the pairs [i < j] *)

Lemma Zsum_app a b : Zsum (a ++ b) = (Zsum a + Zsum b)%Z.
Proof. induction a as [|v a IH]; simpl; [reflexivity|]. rewrite IH. lia. Qed.

Lemma triu1_rows precx (pre xv : list Q) :
  Zsum (concat (imap (fun i row => drop (S (length pre + i)) row)
                  (map (sgn_row precx (pre ++ xv)) xv))) =
  pair_sum precx xv.
Proof.
  revert pre. induction xv as [|xi r IH]; intros pre; [reflexivity|].
  simpl map. rewrite imap_cons. simpl concat. rewrite Zsum_app. simpl pair_sum.
  f_equal.
  - rewrite Nat.add_0_r. unfold sgn_row.
    rewrite map_app, skipn_app, length_map.
    rewrite skipn_all2 by (rewrite length_map; lia).
    replace (S (length pre) - length pre)%nat with 1%nat by lia.
    reflexivity.
  - rewrite <- (IH (pre ++ [xi])). rewrite <- app_assoc. simpl app.
    f_equal. f_equal. apply imap_ext. intros i row _. simpl.
    rewrite length_app. simpl. f_equal. lia.
Qed.

Lemma S_of_pair_sum precx xv : S_of precx xv = pair_sum precx xv.
Proof. exact (triu1_rows precx [] xv). Qed.

(** *** Monotone series *)

Lemma Zsum_const (c : Z) (f : Q -> Z) (r : list Q) :
  Forall (fun v => f v = c) r -> Zsum (map f r) = (c * Z.of_nat (length r))%Z.
Proof.
  induction 1 as [|v r Hv _ IH]; simpl length; simpl map; simpl Zsum; [lia|].
  rewrite Hv, IH. lia.
Qed.

Lemma pair_sum_monotone d precx xv :
  monotone d precx xv ->
  (2 * pair_sum precx xv =
   dir_sign d * (Z.of_nat (length xv) * (Z.of_nat (length xv) - 1)))%Z.
Proof.
  induction xv as [|xi r IH]; intros H; [destruct d; reflexivity|].
  assert (Hr : monotone d precx r) by (destruct d; apply H).
  specialize (IH Hr). simpl pair_sum.
  rewrite (Zsum_const (dir_sign d)).
  - simpl length. lia.
  - destruct d; destruct H as [H _]; eapply Forall_impl; try exact H;
      intros v [Hlt Hp]; simpl.
    + apply sgn1_up; lra.
    + apply sgn1_down; lra.
Qed.

Lemma S_of_monotone d precx xv :
  monotone d precx xv ->
  S_of precx xv =
  (dir_sign d * (Z.of_nat (length xv) * (Z.of_nat (length xv) - 1) / 2))%Z.
Proof.
  intros H. rewrite S_of_pair_sum. apply pair_sum_monotone in H.
  assert (Hev : (Z.of_nat (length xv) * (Z.of_nat (length xv) - 1)
                 = 2 * (dir_sign d * pair_sum precx xv))%Z).
  { destruct d; simpl dir_sign in *; lia. }
  rewrite Hev, (Z.mul_comm 2), Z.div_mul by lia.
  destruct d; simpl; lia.
Qed.

End Stat.

(** ** Negating the series *)

Module Neg.
Import Num Py Np Mkt Fun Stat.
Local Open Scope Q_scope.

Lemma map_fmap {A B} (f : A -> B) (l : list A) : map f l = f <$> l.
Proof. reflexivity. Qed.

Lemma sgn_row_opp precx xv xi :
  sgn_row precx (map Qopp xv) (- xi) = map Z.opp (sgn_row precx xv xi).
Proof.
  unfold sgn_row. rewrite !map_map. apply map_ext. intros v.
  rewrite <- sgn1_opp. apply sgn1_proper; [reflexivity|ring].
Qed.

Lemma sgn_of_opp precx xv :
  sgn_of precx (map Qopp xv) = map (map Z.opp) (sgn_of precx xv).
Proof.
  unfold sgn_of. rewrite !map_map. apply map_ext. intros xi.
  apply sgn_row_opp.
Qed.

Lemma Zsum_opp (a : list Z) : Zsum (map Z.opp a) = (- Zsum a)%Z.
Proof. induction a as [|v a IH]; simpl; [reflexivity|]. rewrite IH. lia. Qed.

Lemma pair_sum_opp precx xv :
  pair_sum precx (map Qopp xv) = (- pair_sum precx xv)%Z.
Proof.
  induction xv as [|xi r IH]; [reflexivity|].
  simpl. rewrite IH.
  change (map (fun v => sgn1 precx (v - - xi)) (map Qopp r))
    with (sgn_row precx (map Qopp r) (- xi)).
  rewrite sgn_row_opp, Zsum_opp. unfold sgn_row. lia.
Qed.

Lemma S_of_opp precx xv : S_of precx (map Qopp xv) = (- S_of precx xv)%Z.
Proof. rewrite !S_of_pair_sum. apply pair_sum_opp. Qed.

(** The zero entries of the marked matrix stay where they are. *)

Lemma np_where2_mask (m1 m2 : list (list Z)) :
  map (map (Z.eqb 0)) m1 = map (map (Z.eqb 0)) m2 ->
  np_where2 m1 = np_where2 m2.
Proof.
  intros H. unfold np_where2.
  change (fun (i : nat) (row : list Z) =>
            map (pair i) (np_where (map (Z.eqb 0) row)))
    with (fun i : nat => (fun mrow => map (pair i) (np_where mrow))
                           ∘ map (Z.eqb 0)).
  rewrite <- !(imap_fmap (fun i mrow => map (pair i) (np_where mrow))).
  rewrite <- !map_fmap. now rewrite H.
Qed.

Lemma mask_fill_diagonal_opp d (m : list (list Z)) :
  map (map (Z.eqb 0)) (fill_diagonal d (map (map Z.opp) m)) =
  map (map (Z.eqb 0)) (fill_diagonal d m).
Proof.
  unfold fill_diagonal. rewrite !map_fmap, imap_fmap, !fmap_imap.
  apply imap_ext. intros i row _. simpl.
  rewrite !map_fmap, !list_fmap_insert. f_equal.
  rewrite <- list_fmap_compose. apply list_fmap_ext. intros _ v _. simpl.
  destruct v; reflexivity.
Qed.

Lemma tie_values_opp precx xv :
  tie_values precx (map Qopp xv) = map Qopp (tie_values precx xv).
Proof.
  unfold tie_values, marked_of. rewrite sgn_of_opp.
  rewrite (np_where2_mask _ _ (mask_fill_diagonal_opp _ _)).
  induction (map fst (np_where2 _)) as [|i idx IH]; [reflexivity|].
  simpl. rewrite (map_fmap Qopp xv), list_lookup_fmap.
  destruct (xv !! i); simpl; [f_equal|]; exact IH.
Qed.

(** *** [np.unique] *)

Lemma insert_unique_InA u v a :
  InA Qeq u (insert_unique v a) <-> u == v \/ InA Qeq u a.
Proof.
  induction a as [|w a IH]; simpl.
  - rewrite InA_cons, InA_nil. tauto.
  - destruct (Qltb v w) eqn:Hlt.
    + rewrite InA_cons. tauto.
    + destruct (Qeq_bool v w) eqn:Heq.
      * apply Qeq_bool_eq in Heq. rewrite InA_cons. split; [tauto|].
        intros [H|H]; [left; now rewrite H|exact H].
      * rewrite !InA_cons, IH. tauto.
Qed.

Lemma insert_unique_sorted v a :
  Sorted Qlt a -> Sorted Qlt (insert_unique v a).
Proof.
  induction 1 as [|w a Hs IH Hd]; simpl.
  - repeat constructor.
  - destruct (Qltb v w) eqn:Hlt.
    + apply Qltb_lt in Hlt. repeat constructor; assumption.
    + destruct (Qeq_bool v w) eqn:Heq; [now constructor|].
      apply Qltb_ge in Hlt. apply Qeq_bool_neq in Heq.
      assert (Hwv : w < v).
      { apply Qle_lteq in Hlt as [H|H]; [exact H|]. now symmetry in H. }
      constructor; [exact IH|].
      destruct a as [|w' a]; simpl; [now constructor|].
      inversion Hd; subst.
      destruct (Qltb v w'); [now constructor|].
      destruct (Qeq_bool v w'); now constructor.
Qed.

Lemma np_unique_sorted a : Sorted Qlt (np_unique a).
Proof.
  induction a as [|v a IH]; simpl; [constructor|].
  now apply insert_unique_sorted.
Qed.

Lemma np_unique_NoDupA a : NoDupA Qeq (np_unique a).
Proof.
  apply (SortA_NoDupA Q_Setoid) with (ltA := Qlt).
  - split; [intros x; apply Qlt_irrefl|intros x y z; apply Qlt_trans].
  - intros x x' Hx y y' Hy. now rewrite Hx, Hy.
  - apply np_unique_sorted.
Qed.

Lemma np_unique_InA u a : InA Qeq u (np_unique a) <-> InA Qeq u a.
Proof.
  induction a as [|v a IH]; simpl; [reflexivity|].
  rewrite insert_unique_InA, InA_cons, IH. reflexivity.
Qed.

Lemma InA_map_opp u (a : list Q) : InA Qeq u (map Qopp a) <-> InA Qeq (- u) a.
Proof.
  induction a as [|v a IH]; simpl; [now rewrite !InA_nil|].
  rewrite !InA_cons, IH. split; (intros [H|H]; [left|now right]).
  - rewrite H. ring.
  - rewrite <- (Qopp_involutive u), H. reflexivity.
Qed.

Lemma NoDupA_map_opp (a : list Q) : NoDupA Qeq a -> NoDupA Qeq (map Qopp a).
Proof.
  induction 1 as [|v a Hv _ IH]; simpl; constructor; [|exact IH].
  rewrite InA_map_opp. now rewrite Qopp_involutive.
Qed.

(** The distinct tie values of the negated series are the negated
    distinct tie values, in some order. *)
Lemma ties_of_opp precx xv :
  PermutationA Qeq (map Qopp (ties_of precx (map Qopp xv))) (ties_of precx xv).
Proof.
  apply (NoDupA_equivlistA_PermutationA Q_Setoid).
  - apply NoDupA_map_opp, np_unique_NoDupA.
  - apply np_unique_NoDupA.
  - intros u. unfold ties_of.
    rewrite InA_map_opp, !np_unique_InA, tie_values_opp, InA_map_opp.
    now rewrite Qopp_involutive.
Qed.

#[export] Instance group_size_proper precx xv :
  Proper (Qeq ==> eq) (group_size precx xv).
Proof.
  intros tk tk' Htk. unfold group_size. do 3 f_equal.
  apply map_ext. intros v. now rewrite Htk.
Qed.

Lemma group_size_opp precx xv tk :
  group_size precx (map Qopp xv) tk = group_size precx xv (- tk).
Proof.
  unfold group_size. do 3 f_equal. rewrite map_map. apply map_ext.
  intros v. rewrite <- (Qabs_opp (v - - tk)).
  apply Qltb_proper; [|reflexivity]. apply Qabs_wd. ring.
Qed.

Lemma Zsum_PermutationA (f : Q -> Z) (a b : list Q) :
  Proper (Qeq ==> eq) f -> PermutationA Qeq a b ->
  Zsum (map f a) = Zsum (map f b).
Proof.
  intros Hf. induction 1 as [|u v a b Huv _ IH|u v a|a b c _ IH1 _ IH2]; simpl.
  - reflexivity.
  - now rewrite IH, (Hf u v Huv).
  - lia.
  - now rewrite IH1.
Qed.

Lemma term2_opp precx xv :
  term2 (q_of precx (map Qopp xv)) = term2 (q_of precx xv).
Proof.
  unfold term2, q_of. rewrite !map_map.
  erewrite <- (Zsum_PermutationA _ _ (ties_of precx xv)).
  - rewrite map_map. f_equal. apply map_ext. intros tk.
    now rewrite group_size_opp.
  - intros tk tk' Htk. now rewrite Htk.
  - apply ties_of_opp.
Qed.

Lemma varS_of_opp precx xv :
  varS_of precx (map Qopp xv) = varS_of precx xv.
Proof.
  unfold varS_of, varS. now rewrite term2_opp, length_map.
Qed.

End Neg.

(** ** Floats: congruence and negation *)

Module FloatFacts.
Import Num Py Np Mkt Fun Stat.
Local Open Scope Q_scope.

#[export] Instance fl_eq_equiv : Equivalence fl_eq.
Proof.
  split.
  - intros []; simpl; auto with qarith.
  - intros [] []; simpl; auto with qarith.
  - intros [] [] []; simpl; try tauto. apply Qeq_trans.
Qed.


#[export] Instance fl_neg_proper : Proper (fl_eq ==> fl_eq) fl_neg.
Proof. intros [] [] H; simpl in *; try tauto. now rewrite H. Qed.

Lemma inf_of_sign_opp s : inf_of_sign (- s) = fl_neg (inf_of_sign s).
Proof. now destruct s. Qed.


#[export] Instance fl_div_proper : Proper (fl_eq ==> fl_eq ==> fl_eq) fl_div.
Proof.
  intros [p| | |] [p'| | |] Hp [q| | |] [q'| | |] Hq; simpl in *;
    try tauto; try reflexivity.
  - rewrite Hq, (Qsign_proper _ _ Hp).
    destruct (Qeq_bool q' 0) eqn:H0; [reflexivity|].
    simpl. now rewrite Hp, Hq.
  - now rewrite Hq.
  - now rewrite Hq.
Qed.


#[export] Instance fl_leb_proper : Proper (fl_eq ==> fl_eq ==> eq) fl_leb.
Proof.
  intros [p| | |] [p'| | |] Hp [q| | |] [q'| | |] Hq; simpl in *;
    try tauto; try reflexivity.
  now rewrite Hp, Hq.
Qed.


Lemma fl_div_neg a b : fl_eq (fl_div (fl_neg a) b) (fl_neg (fl_div a b)).
Proof.
  destruct a as [p| | |], b as [q| | |]; simpl; try reflexivity.
  - destruct (Qeq_bool q 0) eqn:H0.
    + rewrite Qsign_opp, inf_of_sign_opp. reflexivity.
    + simpl. apply Qeq_bool_neq in H0. field. exact H0.
  - destruct (Qltb q 0); reflexivity.
  - destruct (Qltb q 0); reflexivity.
Qed.




Section WithLib.
Context {L : NumLib}.



End WithLib.
End FloatFacts.

(** ** The linear fit of the negated series *)

Module Fit.
Import Num Py Np Mkt Fun Stat FloatFacts Whole.
Local Open Scope Q_scope.






Section WithLib.
Context {L : NumLib}.





End WithLib.
End Fit.


(** ** Arrays of different lengths: the call raises *)

Module Mismatch.
Import Num Py Np Mkt Fun Run Whole.
Local Open Scope Q_scope.

Lemma broadcast_row_run n row (s : store) :
  broadcast_row n row s = (s, out (broadcast_row n row)).
Proof.
  unfold out, broadcast_row. destruct (Nat.eqb _ _); [reflexivity|].
  now destruct row as [|? [|]].
Qed.

(** Iteration [i] of the first loop, whatever the length of [x]. *)
Lemma sgn_body_run_any (s : store) x xv precx i xi m e r :
  s !! x = Some (FArr xv) -> xv !! i = Some xi -> m !! i = Some r ->
  sgn_body x (length s) precx i (s ++ IMat m :: e) =
  match out (broadcast_row (length r) (sgn_row precx xv xi)) with
  | Ok row => (s ++ IMat (<[i := row]> m) :: e ++ [tmp_of precx xv xi], Ok tt)
  | Raise ex => (s ++ IMat m :: e ++ [tmp_of precx xv xi], Raise ex)
  end.
Proof.
  intros Hx Hi Hr. unfold sgn_body.
  erewrite bind_ok by (apply load_farr_ok, lookup_app_l_Some, Hx).
  erewrite bind_ok by (apply getitem_ok, Hi).
  erewrite bind_ok by reflexivity.
  erewrite bind_ok by (apply load_farr_ok, list_lookup_middle; reflexivity).
  erewrite bind_ok by reflexivity.
  rewrite insert_app_r_alt by lia. rewrite Nat.sub_diag. simpl insert.
  erewrite bind_ok by (apply load_farr_ok, list_lookup_middle; reflexivity).
  unfold setrow. rewrite <- app_assoc. simpl.
  erewrite bind_ok by (apply load_imat_ok, lookup_mid).
  erewrite bind_ok by (apply getitem_ok, Hr).
  rewrite sgn_row_tmp.
  unfold bind at 1. rewrite broadcast_row_run.
  destruct (out (broadcast_row _ _)); [apply put_mid|reflexivity].
Qed.

Lemma sign_matrix_mismatch (s : store) t x tv xv precx :
  s !! t = Some (FArr tv) -> s !! x = Some (FArr xv) ->
  length xv <> length tv -> length tv <> 0%nat ->
  exists s' ex, sign_matrix t x precx s = (s', Raise ex).
Proof.
  intros Ht Hx Hne Hn. unfold sign_matrix.
  erewrite bind_ok by (apply load_farr_ok, Ht).
  erewrite bind_ok by reflexivity.
  destruct (length tv) as [|n] eqn:Hlen; [congruence|]. clear Hn.
  simpl seq. simpl for_.
  destruct xv as [|v xr].
  - (* x is empty: x[0] raises *)
    do 2 eexists. erewrite bind_raise; [reflexivity|].
    erewrite bind_raise; [reflexivity|].
    unfold sgn_body.
    erewrite bind_ok by (apply load_farr_ok, lookup_app_l_Some, Hx).
    erewrite bind_raise; reflexivity.
  - pose proof (sgn_body_run_any s x (v :: xr) precx 0 v
                  (replicate (S n) (replicate (S n) 0%Z)) []
                  (replicate (S n) 0%Z) Hx eq_refl eq_refl) as Hb.
    rewrite length_replicate in Hb.
    unfold out, broadcast_row in Hb. unfold sgn_row in Hb.
    rewrite length_map in Hb.
    destruct (Nat.eqb (length (v :: xr)) (S n)) eqn:He.
    { apply Nat.eqb_eq in He. congruence. }
    destruct xr as [|v' xr].
    + (* one element: row 0 is broadcast, x[1] raises *)
      simpl in Hb. destruct n as [|n]; [simpl in Hne; congruence|].
      do 2 eexists. erewrite bind_raise; [reflexivity|].
      erewrite bind_ok by exact Hb.
      simpl seq. simpl for_.
      erewrite bind_raise; [reflexivity|].
      unfold sgn_body.
      erewrite bind_ok by (apply load_farr_ok, lookup_app_l_Some, Hx).
      erewrite bind_raise; reflexivity.
    + (* the shapes do not match *)
      simpl in Hb. do 2 eexists.
      erewrite bind_raise; [reflexivity|].
      erewrite bind_raise; [reflexivity|]. exact Hb.
Qed.

Section WithLib.
Context {L : NumLib}.

Lemma test_mismatch (s : store) t x tv xv precx alpha Ha :
  s !! t = Some (FArr tv) -> s !! x = Some (FArr xv) ->
  length xv <> length tv ->
  exists s' ex, test t x precx alpha Ha s = (s', Raise ex).
Proof.
  intros Ht Hx Hne. unfold test.
  destruct precx as [precx|]; [|do 2 eexists; reflexivity].
  simpl assert_num. destruct (Qeq_bool precx 0); [do 2 eexists; reflexivity|].
  erewrite bind_ok by reflexivity.
  destruct alpha as [alpha|]; [|do 2 eexists; reflexivity].
  simpl assert_num. destruct (Qeq_bool alpha 0); [do 2 eexists; reflexivity|].
  erewrite bind_ok by reflexivity.
  destruct Ha as [[|c Ha]|]; try (do 2 eexists; reflexivity).
  erewrite bind_ok by reflexivity.
  destruct (Nat.eq_dec (length tv) 0%nat) as [H0|H0].
  - (* no time points: the loops are empty and [np.corrcoef] raises *)
    apply length_zero_iff_nil in H0. subst tv.
    erewrite bind_ok.
    2:{ unfold sign_matrix. erewrite bind_ok by (apply load_farr_ok, Ht).
        reflexivity. }
    cbv beta iota. simpl replicate.
    erewrite bind_ok by apply (stat_S_run s [] []).
    erewrite bind_ok.
    2:{ unfold tie_groups.
        erewrite bind_ok by (apply load_imat_ok, lookup_mid).
        erewrite bind_ok by apply put_mid.
        erewrite bind_ok by (apply load_imat_ok, lookup_mid).
        erewrite bind_ok by (apply load_farr_ok, lookup_app_l_Some, Hx).
        simpl. erewrite bind_ok by reflexivity.
        erewrite bind_ok by reflexivity.
        simpl. erewrite bind_ok by reflexivity.
        erewrite bind_ok by (apply load_iarr_ok, list_lookup_middle; reflexivity).
        reflexivity. }
    cbv beta iota.
    rewrite (decide_run _ t x [] xv).
    + match goal with
      | |- exists s' ex, (?s1, ?d) = _ =>
          assert (Hd : exists ex, d = Raise ex)
      end.
      { unfold decide_out.
        destruct (out (MK _ _ _)) as [mk|ex]; [|now exists ex].
        unfold out at 1, slope, np_corrcoef01.
        destruct xv; [simpl in Hne; congruence|]. now eexists. }
      destruct Hd as [ex ->]. now do 2 eexists.
    + rewrite <- ?app_assoc. apply lookup_app_l_Some, Ht.
    + rewrite <- ?app_assoc. apply lookup_app_l_Some, Hx.
  - destruct (sign_matrix_mismatch s t x tv xv precx Ht Hx Hne H0)
      as (s' & ex & Hs).
    do 2 eexists. erewrite bind_raise; [reflexivity|exact Hs].
Qed.

(** A call that returns was given its three parameters and arrays of
    one length. *)
Lemma test_ok_inv (s s' : store) t x tv xv precx alpha Ha r :
  s !! t = Some (FArr tv) -> s !! x = Some (FArr xv) ->
  test t x precx alpha Ha s = (s', Ok r) ->
  length xv = length tv /\
  exists p a h, precx = Some p /\ alpha = Some a /\ Ha = Some h /\
    Qeq_bool p 0 = false /\ Qeq_bool a 0 = false /\ h <> EmptyString.
Proof.
  intros Ht Hx Hr. split.
  - destruct (Nat.eq_dec (length xv) (length tv)) as [He|Hne]; [exact He|].
    destruct (test_mismatch s t x tv xv precx alpha Ha Ht Hx Hne)
      as (s1 & ex & H1).
    congruence.
  - unfold test in Hr.
    destruct precx as [p|]; [|discriminate].
    unfold bind at 1 in Hr. simpl assert_num in Hr.
    destruct (Qeq_bool p 0) eqn:Hp; [discriminate|]. simpl in Hr.
    destruct alpha as [a|]; [|discriminate].
    unfold bind at 1 in Hr. simpl assert_num in Hr.
    destruct (Qeq_bool a 0) eqn:Ha0; [discriminate|]. simpl in Hr.
    destruct Ha as [h|]; [|discriminate].
    destruct h as [|c h]; [discriminate|].
    exists p, a, (String c h). repeat split; congruence.
Qed.

End WithLib.
End Mismatch.

(** ** The verdict and the p-value, case by case *)

Module Cases.
Import Num Py Np Mkt Fun Run Whole Stat FloatFacts.
Local Open Scope Q_scope.
Local Open Scope string_scope.

(** Decide the comparisons of literal strings. *)
Ltac eval_eqb :=
  repeat match goal with
         | |- context [String.eqb ?a ?b] =>
             let v := eval vm_compute in (String.eqb a b) in
             change (String.eqb a b) with v
         end;
  cbv iota.

Section WithLib.
Context {L : NumLib}.

Lemma MK_unbound Ha alpha :
  recognized Ha -> out (MK Ha alpha None) = Raise UnboundLocalError.
Proof. intros [->|[->| ->]]; reflexivity. Qed.

Lemma MK_up alpha z :
  out (MK "up" alpha (Some z)) =
  Ok (Some (if fl_geb z (ndtri (1 - alpha)) then "accept Ha := upward trend"
            else "reject Ha := upward trend")).
Proof.
  unfold out, MK, bind, read_var, ret. eval_eqb.
  now destruct (fl_geb _ _).
Qed.

Lemma MK_down alpha z :
  out (MK "down" alpha (Some z)) =
  Ok (Some (if fl_leb z (fl_neg (ndtri (1 - alpha)))
            then "accept Ha := downward trend"
            else "reject Ha := downward trend")).
Proof.
  unfold out, MK, bind, read_var, ret. eval_eqb.
  now destruct (fl_leb _ _).
Qed.

Lemma MK_upordown alpha z :
  out (MK "upordown" alpha (Some z)) =
  Ok (Some (if fl_geb (fl_abs z) (ndtri (1 - alpha / 2))
            then "accept Ha := upward OR downward trend"
            else "reject Ha := upward OR downward trend")).
Proof.
  unfold out, MK, bind, read_var, ret. eval_eqb.
  now destruct (fl_geb _ _).
Qed.

Lemma slope_ok tv xv :
  length xv = length tv -> exists m, out (slope tv xv) = Ok m.
Proof.
  intros H. unfold out, slope, np_corrcoef01, bind. rewrite H, Nat.eqb_refl.
  now eexists.
Qed.

(** What a returning [decide] has computed. *)
Lemma decide_out_ok tv xv S p vS precx alpha Ha r :
  decide_out tv xv S p vS precx alpha Ha = Ok r ->
  exists mk m pv,
    out (MK Ha alpha (Zmk S precx vS)) = Ok (Some mk) /\
    out (slope tv xv) = Ok m /\
    out (pvalue Ha S precx (Zmk S precx vS) (Fin (inject_Z (Z.of_nat p)))) = Ok pv /\
    r = Result mk m (intercept tv xv m) pv.
Proof.
  unfold decide_out.
  destruct (out (MK _ _ _)) as [[mk|]|]; try discriminate;
    destruct (out (slope _ _)) as [m|]; try discriminate;
    destruct (out (pvalue _ _ _ _ _)) as [pv|]; try discriminate.
  intros [= <-]. now exists mk, m, pv.
Qed.

(** The three regions of [S], for a positive tolerance. *)
Lemma Zmk_positive S precx vS :
  0 < inject_Z S - precx ->
  Zmk S precx vS = Some (fl_div (Fin (inject_Z (S - 1))) (np_sqrt vS)).
Proof. intros H. unfold Zmk. apply Qltb_lt in H. now rewrite H. Qed.

Lemma Zmk_negative S precx vS :
  0 < precx -> inject_Z S + precx < 0 ->
  Zmk S precx vS = Some (fl_div (Fin (inject_Z (S + 1))) (np_sqrt vS)).
Proof.
  intros Hp H. unfold Zmk.
  replace (Qltb 0 (inject_Z S - precx)) with false
    by (symmetry; apply Qltb_ge; lra).
  replace (Qeq_bool (inject_Z S - precx) 0) with false.
  2:{ symmetry. apply not_true_iff_false. rewrite Qeq_bool_iff. lra. }
  apply Qltb_lt in H. now rewrite H.
Qed.

Lemma Zmk_band S precx vS :
  0 < precx -> - precx <= inject_Z S -> inject_Z S < precx ->
  Zmk S precx vS = None.
Proof.
  intros Hp Hlo Hhi. unfold Zmk.
  replace (Qltb 0 (inject_Z S - precx)) with false
    by (symmetry; apply Qltb_ge; lra).
  replace (Qeq_bool (inject_Z S - precx) 0) with false.
  2:{ symmetry. apply not_true_iff_false. rewrite Qeq_bool_iff. lra. }
  replace (Qltb (inject_Z S + precx) 0) with false
    by (symmetry; apply Qltb_ge; lra).
  reflexivity.
Qed.

Lemma inject_Z_opp_sub S : inject_Z (- S - 1) == - inject_Z (S + 1).
Proof. unfold Qeq. simpl. lia. Qed.

Lemma inject_Z_opp_add S : inject_Z (- S + 1) == - inject_Z (S - 1).
Proof. unfold Qeq. simpl. lia. Qed.

(** The Z-score of the negated statistic is the negated Z-score. *)
Lemma Zmk_opp S precx vS z1 z2 :
  0 < precx ->
  Zmk S precx vS = Some z1 -> Zmk (- S) precx vS = Some z2 ->
  fl_eq z2 (fl_neg z1).
Proof.
  intros Hp H1 H2.
  destruct (Qlt_le_dec 0 (inject_Z S - precx)) as [Hpos|Hnp].
  - rewrite Zmk_positive in H1 by exact Hpos.
    rewrite Zmk_negative in H2 by (rewrite ?inject_Z_opp; lra).
    apply Some_inj in H1. apply Some_inj in H2. subst z1 z2.
    rewrite <- fl_div_neg. apply fl_div_proper; [|reflexivity].
    apply inject_Z_opp_add.
  - destruct (Qlt_le_dec (inject_Z S + precx) 0) as [Hneg|Hnn].
    + rewrite Zmk_negative in H1 by assumption.
      rewrite Zmk_positive in H2 by (rewrite inject_Z_opp; lra).
      apply Some_inj in H1. apply Some_inj in H2. subst z1 z2.
      rewrite <- fl_div_neg. apply fl_div_proper; [|reflexivity].
      apply inject_Z_opp_sub.
    + (* -precx <= S <= precx: one of the two is in the gap *)
      apply Qle_lteq in Hnn as [Hlt|Heq].
      * rewrite (Zmk_band (- S)) in H2; [discriminate|exact Hp| |];
          rewrite inject_Z_opp; lra.
      * rewrite (Zmk_band S) in H1; [discriminate|exact Hp| |]; lra.
Qed.

End WithLib.
End Cases.

(** ** What holds of the verdict and of the p-value *)

Module Holds.
Import Num Py Np Mkt Fun Run Whole Stat FloatFacts Cases.
Local Open Scope Q_scope.
Local Open Scope string_scope.
Local Open Scope list_scope.

Section WithLib.
Context {L : NumLib}.

(** The three conditions exclude each other for a positive tolerance. *)
Lemma branches_exclusive (S : Z) (precx : Q) :
  0 < precx ->
  ~ (0 < inject_Z S - precx /\ inject_Z S - precx == 0) /\
  ~ (0 < inject_Z S - precx /\ inject_Z S + precx < 0) /\
  ~ (inject_Z S - precx == 0 /\ inject_Z S + precx < 0).
Proof. intros Hp. repeat split; intros [H1 H2]; lra. Qed.


Lemma ndtr_range z : z <> NaN -> fl_in 0 1 (ndtr z).
Proof.
  destruct z as [q| | |]; simpl; intros Hz; try lra; [|congruence].
  apply Phi_range.
Qed.

(** A returned verdict has exactly one of the words and names the
    alternative. *)
Lemma verdict_words tv xv S p vS precx alpha Ha r :
  decide_out tv xv S p vS precx alpha Ha = Ok r ->
  recognized Ha /\
  xorb (contains "accept" (r_MK r)) (contains "reject" (r_MK r)) = true /\
  contains (alt_phrase Ha) (r_MK r) = true.
Proof.
  intros Hr. apply decide_out_ok in Hr as (mk & m & pv & Hmk & _ & _ & ->).
  simpl r_MK. revert Hmk. unfold out, MK, bind, read_var, ret, raise.
  destruct (String.eqb Ha "up") eqn:E1;
    [|destruct (String.eqb Ha "down") eqn:E2;
      [|destruct (String.eqb Ha "upordown") eqn:E3]].
  - apply String.eqb_eq in E1. subst Ha.
    destruct (Zmk S precx vS) as [z|]; [|discriminate].
    destruct (fl_geb _ _); intros [= <-]; (split; [now left|]); split; reflexivity.
  - apply String.eqb_eq in E2. subst Ha.
    destruct (Zmk S precx vS) as [z|]; [|discriminate].
    destruct (fl_leb _ _); intros [= <-]; (split; [right; now left|]);
      split; reflexivity.
  - apply String.eqb_eq in E3. subst Ha.
    destruct (Zmk S precx vS) as [z|]; [|discriminate].
    destruct (fl_geb _ _); intros [= <-]; (split; [right; now right|]);
      split; reflexivity.
  - discriminate.
Qed.

Lemma MK_some Ha alpha z :
  recognized Ha -> exists mk, out (MK Ha alpha (Some z)) = Ok (Some mk).
Proof.
  intros [->|[->| ->]]; rewrite ?MK_up, ?MK_down, ?MK_upordown; now eexists.
Qed.

Lemma pvalue_some Ha S precx z p0 :
  exists pv, out (pvalue Ha S precx (Some z) p0) = Ok pv.
Proof.
  unfold out, pvalue, bind, read_var, ret.
  repeat match goal with
         | |- context [if ?b then _ else _] => destruct b
         end; now eexists.
Qed.

(** A call with a known alternative, on arrays of one length, returns as
    soon as one of the three branches assigns the Z-score. *)
Lemma test_returns (s : store) t x tv xv precx alpha Ha z :
  s !! t = Some (FArr tv) -> s !! x = Some (FArr xv) ->
  length xv = length tv ->
  ~ precx == 0 -> ~ alpha == 0 -> recognized Ha ->
  Zmk (S_of precx xv) precx (varS_of precx xv) = Some z ->
  exists r,
    test t x (Some precx) (Some alpha) (Some Ha) s =
    (s ++ ext_of precx xv, Ok r).
Proof.
  intros Ht Hx Hlen Hp Ha0 Hrec Hz.
  rewrite (test_run s t x tv xv); try assumption.
  - unfold decide_out. rewrite Hz.
    destruct (MK_some Ha alpha z Hrec) as [mk ->].
    destruct (slope_ok tv xv Hlen) as [m ->].
    destruct (pvalue_some Ha (S_of precx xv) precx z
                (Fin (inject_Z (Z.of_nat (length (ties_of precx xv))))))
      as [pv ->].
    now eexists.
  - apply not_true_iff_false. now rewrite Qeq_bool_iff.
  - apply not_true_iff_false. now rewrite Qeq_bool_iff.
  - destruct Hrec as [->|[->| ->]]; discriminate.
Qed.

(** When the Z-score is a number or an infinity, the returned p-value is
    in [[0, 1]]. *)
Lemma p_value_range tv xv S p vS precx alpha Ha r z :
  decide_out tv xv S p vS precx alpha Ha = Ok r ->
  Zmk S precx vS = Some z -> z <> NaN ->
  fl_in 0 1 (r_p r).
Proof.
  intros Hr Hz Hnan.
  destruct (verdict_words _ _ _ _ _ _ _ _ _ Hr) as [Hrec _].
  apply decide_out_ok in Hr as (mk & m & pv & _ & _ & Hpv & ->).
  simpl r_p. revert Hpv. rewrite Hz. unfold out, pvalue, bind, read_var, ret.
  pose proof (ndtr_range z Hnan) as Hn.
  destruct (Qltb 0 (inject_Z S - precx)) eqn:E1;
    [|destruct (Qeq_bool (inject_Z S - precx) 0) eqn:E2;
      [|destruct (Qltb (inject_Z S + precx) 0) eqn:E3]].
  4:{ unfold Zmk in Hz. rewrite E1, E2, E3 in Hz. discriminate. }
  all: destruct Hrec as [->|[->| ->]]; eval_eqb; intros [= <-];
    destruct (ndtr z); simpl in *; lra.
Qed.

(** With a Z-score that is a number or an infinity, the two one-sided
    p-values add up to 1 outside the band. *)
Lemma one_sided_sum tv xv S p vS precx alpha r1 r2 z :
  decide_out tv xv S p vS precx alpha "up" = Ok r1 ->
  decide_out tv xv S p vS precx alpha "down" = Ok r2 ->
  Zmk S precx vS = Some z -> z <> NaN ->
  0 < inject_Z S - precx \/ inject_Z S + precx < 0 ->
  fl_eq (fl_add (r_p r1) (r_p r2)) (Fin 1).
Proof.
  intros H1 H2 Hz Hnan Hout.
  apply decide_out_ok in H1 as (mk1 & m1 & pv1 & _ & _ & Hp1 & ->).
  apply decide_out_ok in H2 as (mk2 & m2 & pv2 & _ & _ & Hp2 & ->).
  simpl r_p. revert Hp1 Hp2. rewrite Hz.
  unfold out, pvalue, bind, read_var, ret.
  destruct (Qltb 0 (inject_Z S - precx)) eqn:E1;
    [|destruct (Qeq_bool (inject_Z S - precx) 0) eqn:E2;
      [|destruct (Qltb (inject_Z S + precx) 0) eqn:E3]];
    eval_eqb; intros [= <-] [= <-].
  - destruct z as [q| | |]; simpl; try congruence; ring.
  - apply Qltb_ge in E1. apply Qeq_bool_eq in E2.
    destruct Hout as [Ho|Ho]; [lra|].
    revert Hz. unfold Zmk.
    replace (Qltb 0 (inject_Z S - precx)) with false
      by (symmetry; apply Qltb_ge; lra).
    replace (Qeq_bool (inject_Z S - precx) 0) with true
      by (symmetry; now apply Qeq_bool_iff).
    intros [= <-]. simpl. reflexivity.
  - destruct z as [q| | |]; simpl; try congruence; ring.
  - apply Qltb_ge in E1, E3. destruct Hout; lra.
Qed.

End WithLib.
End Holds.

(** ** The tie groups when the diagonal marker is not zero *)

Module Ties.
Import Num Py Np Mkt Fun Run Whole Stat Neg.
Local Open Scope Q_scope.

Lemma where_from_elem k mask j :
  j ∈ where_from k mask <->
  exists j', j = (k + j')%nat /\ mask !! j' = Some true.
Proof.
  revert k. induction mask as [|b mask IH]; intros k; simpl.
  - split; [intros H; inversion H|intros (j' & _ & H); discriminate].
  - assert (Hrest : j ∈ where_from (S k) mask <->
                    exists j', j = (k + S j')%nat /\ mask !! j' = Some true).
    { rewrite IH. split; intros (j' & -> & H); exists j'; split; (lia || exact H). }
    destruct b.
    + rewrite elem_of_cons, Hrest. split.
      * intros [->|(j' & -> & H)]; [exists 0%nat|exists (S j')];
          split; (lia || assumption || reflexivity).
      * intros ([|j'] & -> & H); [left; lia|right; now exists j'].
    + rewrite Hrest. split.
      * intros (j' & -> & H). now exists (S j').
      * intros ([|j'] & -> & H); [discriminate|now exists j'].
Qed.

Lemma np_where2_elem (m : list (list Z)) i j :
  (i, j) ∈ np_where2 m <->
  exists row, m !! i = Some row /\ row !! j = Some 0%Z.
Proof.
  unfold np_where2. rewrite list_elem_of_In, in_concat. split.
  - intros (l & Hl & Hij).
    apply list_elem_of_In, elem_of_lookup_imap in Hl as (i' & row & -> & Hrow).
    apply in_map_iff in Hij as (j' & [= <- <-] & Hj).
    apply list_elem_of_In, where_from_elem in Hj as (j'' & -> & Hj).
    exists row. split; [exact Hrow|]. simpl.
    rewrite map_fmap, list_lookup_fmap in Hj.
    destruct (row !! j'') as [v|]; [|discriminate].
    simpl in Hj. injection Hj as Hv. now destruct v.
  - intros (row & Hrow & Hj).
    exists (map (pair i) (np_where (map (Z.eqb 0) row))). split.
    + apply list_elem_of_In.
      apply (elem_of_lookup_imap_2
               (fun i row => map (pair i) (np_where (map (Z.eqb 0) row)))
               m row i Hrow).
    + apply in_map, list_elem_of_In, where_from_elem.
      exists j. split; [reflexivity|].
      now rewrite map_fmap, list_lookup_fmap, Hj.
Qed.

Lemma sgn1_zero precx d : 0 < precx -> sgn1 precx d = 0%Z -> Qabs d < precx.
Proof.
  intros Hp. unfold sgn1, np_sign.
  destruct (Qltb (Qabs d) precx) eqn:E; [intros _; now apply Qltb_lt|].
  intros Hs. destruct (Q_dec d 0) as [[Hd|Hd]|Hd].
  - rewrite (Qsign_neg d Hd) in Hs. discriminate.
  - rewrite (Qsign_pos d Hd) in Hs. discriminate.
  - rewrite Hd. exact Hp.
Qed.

(** A tie value is [x[i]] for a position [i] that is tied with another
    position [j]. *)
Lemma tie_values_elem precx xv v :
  0 < precx -> int64_of_float (precx * 1000000) <> 0%Z ->
  v ∈ tie_values precx xv ->
  exists i j xj, i <> j /\ xv !! i = Some v /\ xv !! j = Some xj /\
                 Qabs (xj - v) < precx.
Proof.
  intros Hp Hd Hv. unfold tie_values in Hv.
  apply list_elem_of_omap in Hv as (i & Hi & Hxi).
  apply list_elem_of_In, in_map_iff in Hi as ([i' j] & Hfst & Hij).
  simpl in Hfst. subst i'.
  apply list_elem_of_In, np_where2_elem in Hij as (row & Hrow & Hj).
  unfold marked_of, fill_diagonal in Hrow.
  rewrite list_lookup_imap in Hrow. unfold sgn_of in Hrow.
  rewrite map_fmap, list_lookup_fmap, Hxi in Hrow. simpl in Hrow.
  injection Hrow as <-.
  destruct (Nat.eq_dec i j) as [->|Hne].
  - exfalso. rewrite list_lookup_insert_eq in Hj.
    + now injection Hj.
    + apply lookup_lt_Some in Hxi. unfold sgn_row. now rewrite length_map.
  - rewrite list_lookup_insert_ne in Hj by exact Hne.
    unfold sgn_row in Hj. rewrite map_fmap, list_lookup_fmap in Hj.
    destruct (xv !! j) as [xj|] eqn:Hxj; [|discriminate].
    simpl in Hj. injection Hj as Hs.
    exists i, j, xj. repeat split; try assumption.
    now apply sgn1_zero.
Qed.

Lemma where_from_two k (mask : list bool) i j :
  i <> j -> mask !! i = Some true -> mask !! j = Some true ->
  (2 <= length (where_from k mask))%nat.
Proof.
  intros Hne Hi Hj.
  assert (Hin : forall a, a ∈ [(k + i)%nat; (k + j)%nat] ->
                          a ∈ where_from k mask).
  { intros a Ha. apply where_from_elem.
    apply elem_of_cons in Ha as [->|Ha]; [now exists i|].
    apply list_elem_of_singleton in Ha as ->. now exists j. }
  assert (Hnd : NoDup [(k + i)%nat; (k + j)%nat]).
  { apply NoDup_cons. split; [|apply NoDup_singleton].
    rewrite list_elem_of_singleton. lia. }
  apply (submseteq_length [(k + i)%nat; (k + j)%nat]).
  now apply NoDup_submseteq.
Qed.

Lemma group_size_two precx xv i j xi xj :
  0 < precx -> i <> j -> xv !! i = Some xi -> xv !! j = Some xj ->
  Qabs (xj - xi) < precx ->
  (2 <= group_size precx xv xi)%Z.
Proof.
  intros Hp Hne Hi Hj Hd. unfold group_size, np_where.
  apply (Nat2Z.inj_le 2). apply (where_from_two 0 _ i j Hne).
  - rewrite map_fmap, list_lookup_fmap, Hi.
    change (Some (Qltb (Qabs (xi - xi)) precx) = Some true). f_equal.
    apply Qltb_lt, Qabs_Qlt_condition. split; lra.
  - rewrite map_fmap, list_lookup_fmap, Hj.
    change (Some (Qltb (Qabs (xj - xi)) precx) = Some true). f_equal.
    now apply Qltb_lt.
Qed.

(** For a positive tolerance whose marker [precx * 1E6] does not
    truncate to zero, every tie group has at least two members. *)
Lemma q_of_ge_2 precx xv :
  0 < precx -> int64_of_float (precx * 1000000) <> 0%Z ->
  Forall (fun qk => (2 <= qk)%Z) (q_of precx xv).
Proof.
  intros Hp Hd. unfold q_of. apply Forall_forall. intros qk Hqk.
  apply list_elem_of_In, in_map_iff in Hqk as (tk & <- & Htk).
  assert (Hin : InA Qeq tk (tie_values precx xv)).
  { apply np_unique_InA. apply InA_alt. exists tk. split; [reflexivity|exact Htk]. }
  apply InA_alt in Hin as (v & Heq & Hv).
  apply list_elem_of_In in Hv.
  destruct (tie_values_elem precx xv v Hp Hd Hv)
    as (i & j & xj & Hne & Hi & Hj & Hlt).
  rewrite (group_size_proper precx xv tk v Heq).
  exact (group_size_two precx xv i j v xj Hp Hne Hi Hj Hlt).
Qed.

(** So do the sizes that the tie-group step of [test] returns. *)
Lemma tie_groups_ge_2 (s e : store) x xv precx :
  s !! x = Some (FArr xv) ->
  0 < precx -> int64_of_float (precx * 1000000) <> 0%Z ->
  exists s' p q,
    tie_groups x (length s) precx (s ++ IMat (sgn_of precx xv) :: e) =
    (s', Ok (p, q)) /\
    Forall (fun qk => (2 <= qk)%Z) q.
Proof.
  intros Hx Hp Hd. do 3 eexists. split.
  - now apply tie_groups_run.
  - now apply q_of_ge_2.
Qed.

End Ties.

(** * The claims of the specification *)

(** Each claim is settled on [test] as embedded above.
    - C4, C5, C6 and C7 hold; C5 and C6 for a positive tolerance, the
      documented domain of [precx].
    - C1 holds for the inputs that the three assertions reject.
    - C2 and C3 fail by the gap between the three branches on [S]; C8
      fails by the truncated marker of the diagonal; C9 and C10 fail by
      the square root of a negative variance. For each, the part that
      holds is in [Holds] and [Ties]. *)

Module Claims.
Import Num Py Np Mkt Fun Run Whole Frame Stat Neg FloatFacts Fit Demo.
Import Mismatch Cases.
Local Open Scope Q_scope.
Local Open Scope string_scope.
Local Open Scope list_scope.

(** ** C1: what is validated, and when *)

(** C1, as the code has it: a tolerance or a significance level that is
    zero or not given, or an alternative that is empty or not given,
    makes the call fail with [AssertionError] before anything else is
    done: the store is the one the call was given, whatever [t] and [x]
    are. *)
Theorem C1_assertions_first `{NumLib} (s : store) t x precx alpha Ha :
  falsy_num precx = true \/ falsy_num alpha = true \/ falsy_str Ha = true ->
  test t x precx alpha Ha s = (s, Raise AssertionError).
Proof.
  intros Hf. unfold test.
  destruct precx as [p|]; [|reflexivity].
  simpl assert_num. simpl falsy_num in Hf.
  destruct (Qeq_bool p 0); [reflexivity|].
  erewrite bind_ok by reflexivity.
  destruct alpha as [a|]; [|reflexivity].
  simpl assert_num. simpl falsy_num in Hf.
  destruct (Qeq_bool a 0); [reflexivity|].
  erewrite bind_ok by reflexivity.
  destruct Ha as [[|c h]|]; try reflexivity.
  simpl in Hf. intuition discriminate.
Qed.

Lemma C1_assertions_first_witness :
  (falsy_num (Some 0) = true \/ falsy_num (Some (1 # 20)) = true \/
   falsy_str (Some "up") = true) /\
  test (L := demo_lib) 0 1 (Some 0) (Some (1 # 20)) (Some "up")
    (caller [0; 1; 2] [1; 2; 3]) =
  (caller [0; 1; 2] [1; 2; 3], Raise AssertionError).
Proof.
  split; [left; reflexivity|].
  apply (C1_assertions_first (H := demo_lib)). left; reflexivity.
Defined.

(** [alpha = 1] passes the assertion and the call returns, whatever the
    numeric library computes. *)
Lemma alpha_one_returns `{NumLib} :
  exists s' r,
    test 0 1 (Some (1 # 1000)) (Some 1) (Some "up")
      (caller [0; 1; 2] [1; 2; 3]) = (s', Ok r).
Proof.
  edestruct (Holds.test_returns (caller [0; 1; 2] [1; 2; 3]) 0%nat 1%nat
               [0; 1; 2] [1; 2; 3] (1 # 1000) 1 "up") as [r Hr];
    try reflexivity; try discriminate; try (now left).
  eexists _, r. exact Hr.
Qed.

(** C1 as stated fails in three of its five cases: [alpha = 1] passes
    the assertion and the call returns; ["sideways"] passes it too and
    the call fails only at its [return], with [UnboundLocalError], after
    all arrays were built; arrays of different lengths fail in the first
    loop with [ValueError]. *)
Lemma C1_counterexample :
  (exists s' r,
     test (L := demo_lib) 0 1 (Some (1 # 1000)) (Some 1) (Some "up")
       (caller [0; 1; 2] [1; 2; 3]) = (s', Ok r)) /\
  (exists s',
     test (L := demo_lib) 0 1 (Some (1 # 1000)) (Some (1 # 20))
       (Some "sideways") (caller [0; 1; 2] [1; 2; 3]) =
     (s', Raise UnboundLocalError) /\ length s' = 7%nat) /\
  (exists s',
     test (L := demo_lib) 0 1 (Some (1 # 1000)) (Some (1 # 20)) (Some "up")
       (caller [0; 1; 2] [1; 2]) = (s', Raise ValueError) /\
     length s' = 4%nat).
Proof.
  split; [|split].
  - do 2 eexists. vm_compute. reflexivity.
  - eexists. split; [vm_compute; reflexivity|reflexivity].
  - eexists. split; [vm_compute; reflexivity|reflexivity].
Qed.

(** ** C2: the three branches of the Z-score *)

(** C2 fails on the code: for a positive tolerance and
    [-precx <= S < precx], which includes [S = 0], none of the three
    conditions holds and [Zmk] is not assigned. *)
Theorem C2_no_branch_in_band `{NumLib} (S : Z) (precx vS : Q) :
  0 < precx -> - precx <= inject_Z S -> inject_Z S < precx ->
  Zmk S precx vS = None.
Proof. apply Zmk_band. Qed.

Lemma C2_no_branch_in_band_witness :
  (0 < 1 # 1000 /\ - (1 # 1000) <= inject_Z 0 /\ inject_Z 0 < 1 # 1000) /\
  Zmk (L := demo_lib) 0 (1 # 1000) (11 # 3) = None.
Proof.
  split; [repeat split; discriminate|].
  apply (C2_no_branch_in_band (H := demo_lib)); [reflexivity|discriminate|reflexivity].
Defined.

(** A run that ends in the gap: [x = [1, 2, 1]] has [S = 0]. *)
Lemma gap_run_raises `{NumLib} :
  S_of (1 # 1000) [1; 2; 1] = 0%Z /\
  exists s',
    test 0 1 (Some (1 # 1000)) (Some (1 # 20)) (Some "up")
      (caller [0; 1; 2] [1; 2; 1]) = (s', Raise UnboundLocalError).
Proof.
  split; [reflexivity|]. eexists. vm_compute. reflexivity.
Qed.

(** ** C3: the constant series *)

Lemma pair_sum_tied precx xv : all_tied precx xv -> pair_sum precx xv = 0%Z.
Proof.
  induction xv as [|xi r IH]; intros Ht; [reflexivity|].
  destruct Ht as [Hxi Hr]. simpl. rewrite (IH Hr).
  rewrite (Zsum_const 0%Z); [lia|].
  eapply Forall_impl; [exact Hxi|]. intros v Hv. now apply sgn1_tie.
Qed.

(** C3 fails on the code: on a series whose values are all tied, [S] is
    [0] as the claim says, but then no branch assigns [Zmk] and the call
    raises [UnboundLocalError] when the verdict reads it, for each of
    the three alternatives; no Z-score and no p-value are returned. *)
Theorem C3_constant_series_raises `{NumLib} (s : store) t x tv xv precx alpha Ha :
  s !! t = Some (FArr tv) -> s !! x = Some (FArr xv) ->
  length xv = length tv ->
  0 < precx -> ~ alpha == 0 -> recognized Ha -> all_tied precx xv ->
  S_of precx xv = 0%Z /\
  test t x (Some precx) (Some alpha) (Some Ha) s =
  (s ++ ext_of precx xv, Raise UnboundLocalError).
Proof.
  intros Ht Hx Hlen Hp Ha0 Hrec Htied.
  assert (HS : S_of precx xv = 0%Z).
  { rewrite S_of_pair_sum. now apply pair_sum_tied. }
  split; [exact HS|].
  rewrite (test_run s t x tv xv); try assumption.
  - f_equal. unfold decide_out. rewrite HS.
    rewrite Zmk_band by (change (inject_Z 0) with 0; lra).
    now rewrite MK_unbound.
  - apply not_true_iff_false. rewrite Qeq_bool_iff. lra.
  - apply not_true_iff_false. now rewrite Qeq_bool_iff.
  - destruct Hrec as [->|[->| ->]]; discriminate.
Qed.

Lemma C3_constant_series_raises_witness :
  (caller [0; 1; 2] [5; 5; 5] !! 0%nat = Some (FArr [0; 1; 2]) /\
   caller [0; 1; 2] [5; 5; 5] !! 1%nat = Some (FArr [5; 5; 5]) /\
   length [5; 5; 5] = length [0; 1; 2] /\
   0 < 1 # 1000 /\ ~ (1 # 20) == 0 /\ recognized "upordown" /\
   all_tied (1 # 1000) [5; 5; 5]) /\
  S_of (1 # 1000) [5; 5; 5] = 0%Z /\
  test (L := demo_lib) 0 1 (Some (1 # 1000)) (Some (1 # 20)) (Some "upordown")
    (caller [0; 1; 2] [5; 5; 5]) =
  (caller [0; 1; 2] [5; 5; 5] ++ ext_of (1 # 1000) [5; 5; 5],
   Raise UnboundLocalError).
Proof.
  assert (Ht : all_tied (1 # 1000) [5; 5; 5]).
  { simpl. repeat (split || constructor). }
  split.
  - repeat split; try reflexivity; try discriminate; try apply Ht.
    right; right; reflexivity.
  - apply (C3_constant_series_raises (H := demo_lib) _ 0%nat 1%nat
             [0; 1; 2] [5; 5; 5]);
      try reflexivity; try discriminate; try exact Ht.
    right; right; reflexivity.
Defined.

(** ** C4: monotone series *)

(** C4: on a strictly increasing series whose differences all exceed the
    tolerance, the two steps of [test] that compute [S] return
    [n(n-1)/2], and on a strictly decreasing one [-n(n-1)/2]. *)
Theorem C4_S_monotone (s : store) t x tv xv precx d :
  s !! t = Some (FArr tv) -> s !! x = Some (FArr xv) ->
  length xv = length tv -> monotone d precx xv ->
  exists s1 sgn,
    sign_matrix t x precx s = (s1, Ok (length xv, sgn)) /\
    stat_S sgn s1 =
    (s1, Ok (dir_sign d *
             (Z.of_nat (length xv) * (Z.of_nat (length xv) - 1) / 2))%Z).
Proof.
  intros Ht Hx Hlen Hm.
  exists (s ++ IMat (sgn_of precx xv) :: map (tmp_of precx xv) xv), (length s).
  split.
  - rewrite (sign_matrix_run s t x tv xv) by assumption. now rewrite Hlen.
  - rewrite stat_S_run. fold (S_of precx xv). now rewrite (S_of_monotone d).
Qed.

Lemma C4_S_monotone_witness :
  (monotone Increasing (1 # 1000) [1; 2; 4; 7] /\
   monotone Decreasing (1 # 1000) [7; 4; 2; 1]) /\
  (exists s1 sgn,
     sign_matrix 0 1 (1 # 1000) (caller [0; 1; 2; 3] [1; 2; 4; 7]) =
     (s1, Ok (4%nat, sgn)) /\
     stat_S sgn s1 = (s1, Ok 6%Z)) /\
  (exists s1 sgn,
     sign_matrix 0 1 (1 # 1000) (caller [0; 1; 2; 3] [7; 4; 2; 1]) =
     (s1, Ok (4%nat, sgn)) /\
     stat_S sgn s1 = (s1, Ok (-6)%Z)).
Proof.
  assert (Hi : monotone Increasing (1 # 1000) [1; 2; 4; 7]).
  { simpl. repeat (split || constructor). }
  assert (Hd : monotone Decreasing (1 # 1000) [7; 4; 2; 1]).
  { simpl. repeat (split || constructor). }
  split; [now split|]. split.
  - exact (C4_S_monotone (caller [0; 1; 2; 3] [1; 2; 4; 7]) 0 1 _ _ _
             Increasing eq_refl eq_refl eq_refl Hi).
  - exact (C4_S_monotone (caller [0; 1; 2; 3] [7; 4; 2; 1]) 0 1 _ _ _
             Decreasing eq_refl eq_refl eq_refl Hd).
Defined.

(** ** C5: the two-sided p-value for a negative [S] *)




(** ** C6: the mirrored test *)




(** ** C7: the caller's arrays *)

(** C7: whatever the arguments are and whether the call returns or
    raises, the store after the call is the caller's store followed by
    the arrays that the call created ([sgn], the [tmp] of each
    iteration, [q]): every update in place, among them the marking of
    the diagonal of [sgn], goes to one of these, and [t] and [x] hold
    what they held. *)
Theorem C7_inputs_unchanged `{NumLib} (s : store) t x precx alpha Ha :
  exists e, fst (test t x precx alpha Ha s) = s ++ e.
Proof.
  destruct (ext_test s t x precx alpha Ha []) as [[e He] _].
  rewrite app_nil_r in He. now exists e.
Qed.

(** ** C8: the sizes of the tie groups *)

(** C8 fails on the code for a tolerance below [1e-6]: the marker
    [precx * 1E6] that [np.fill_diagonal] stores into the [int] matrix
    is truncated to [0], the diagonal counts as tied, and every value
    becomes a tie group, here three groups of size 1. *)
Theorem C8_groups_of_size_one :
  exists s1 s2,
    sign_matrix 0 1 (1 # 10000000) (caller [0; 1; 2] [1; 2; 3]) =
    (s1, Ok (3%nat, 2%nat)) /\
    s1 !! 2%nat = Some (IMat [[0; 1; 1]; [-1; 0; 1]; [-1; -1; 0]]%Z) /\
    int64_of_float ((1 # 10000000) * 1000000) = 0%Z /\
    tie_groups 1 2 (1 # 10000000) s1 = (s2, Ok (3%nat, [1; 1; 1]%Z)).
Proof.
  do 2 eexists. split; [vm_compute; reflexivity|].
  split; [reflexivity|]. split; [reflexivity|]. vm_compute. reflexivity.
Qed.

(** ** C9 and C10: the p-value when the variance is negative *)

Lemma overlapping_stats :
  S_of 1 overlapping = 3%Z /\ q_of 1 overlapping = [2; 3; 3; 2]%Z /\
  varS_of 1 overlapping == - (2 # 3).
Proof. repeat split. Qed.

(** C9 fails on the code: on this input [np.sqrt(varS)] is NaN, so is
    [Zmk], the verdict is a rejection (every comparison with NaN is
    false) and the call returns the p-value NaN, which is not in
    [[0, 1]]. *)
Theorem C9_p_value_nan `{NumLib} :
  exists s' r,
    test 0 1 (Some 1) (Some (1 # 20)) (Some "up")
      (caller [0; 1; 2; 3] overlapping) = (s', Ok r) /\
    r_MK r = "reject Ha := upward trend" /\
    r_p r = NaN /\ ~ fl_in 0 1 (r_p r).
Proof.
  do 2 eexists. split; [vm_compute; reflexivity|].
  split; [reflexivity|]. split; [reflexivity|]. simpl. tauto.
Qed.

(** C10 fails on the code, by the same defect: on this input [S = 3] is
    outside the band, both one-sided calls return, and both p-values are
    NaN; their sum is NaN, not 1. *)
Theorem C10_p_values_nan `{NumLib} :
  0 < inject_Z (S_of 1 overlapping) - 1 /\
  exists s1 r1 s2 r2,
    test 0 1 (Some 1) (Some (1 # 20)) (Some "up")
      (caller [0; 1; 2; 3] overlapping) = (s1, Ok r1) /\
    test 0 1 (Some 1) (Some (1 # 20)) (Some "down")
      (caller [0; 1; 2; 3] overlapping) = (s2, Ok r2) /\
    fl_add (r_p r1) (r_p r2) = NaN /\
    ~ fl_eq (fl_add (r_p r1) (r_p r2)) (Fin 1).
Proof.
  split; [reflexivity|].
  do 4 eexists. split; [vm_compute; reflexivity|].
  split; [vm_compute; reflexivity|]. split; [reflexivity|]. simpl. tauto.
Qed.

End Claims.


(** * Further properties of [test] *)

(** Beyond the statements of the specification: which exception a call
    ends in and when it returns, what a returned result satisfies,
    bounds on the statistic and the tie groups, and what the result
    does not depend on. Equalities of computed values are those of the
    exact arithmetic of the model. *)

(** ** Which exception, and when the call returns *)

Module Outcome.
Import Num Py Np Mkt Fun Vocab Run Whole Stat FloatFacts Mismatch Cases Holds Demo.
Local Open Scope Q_scope.
Local Open Scope string_scope.
Local Open Scope list_scope.

Lemma for_raise {A} (i : A) l (body : A -> M unit) (s s' : store) ex :
  body i s = (s', Raise ex) -> for_ (i :: l) body s = (s', Raise ex).
Proof. intros H. simpl. now apply bind_raise. Qed.

(** The first loop on an [x] whose length is not [n]. *)
Lemma sign_matrix_mismatch_exn (s : store) t x tv xv precx :
  s !! t = Some (FArr tv) -> s !! x = Some (FArr xv) ->
  length xv <> length tv -> tv <> [] ->
  exists s', sign_matrix t x precx s = (s', Raise (mismatch_exn xv)).
Proof.
  intros Ht Hx Hne Hn. unfold sign_matrix.
  erewrite bind_ok by (apply load_farr_ok, Ht).
  erewrite bind_ok by reflexivity.
  destruct tv as [|t0 tv]; [congruence|]. clear Hn.
  set (n := length tv) in *. simpl length in *. fold n in Hne |- *.
  simpl seq.
  destruct xv as [|v xr].
  - eexists. erewrite bind_raise; [reflexivity|].
    apply for_raise. unfold sgn_body.
    erewrite bind_ok by (apply load_farr_ok, lookup_app_l_Some, Hx).
    erewrite bind_raise; reflexivity.
  - pose proof (sgn_body_run_any s x (v :: xr) precx 0 v
                  (replicate (S n) (replicate (S n) 0%Z)) []
                  (replicate (S n) 0%Z) Hx eq_refl eq_refl) as Hb.
    rewrite length_replicate in Hb.
    unfold out, broadcast_row in Hb. unfold sgn_row in Hb.
    rewrite length_map in Hb.
    destruct (Nat.eqb (length (v :: xr)) (S n)) eqn:He.
    { apply Nat.eqb_eq in He. congruence. }
    destruct xr as [|v' xr].
    + simpl in Hb. destruct n as [|n]; [simpl in Hne; congruence|].
      eexists. erewrite bind_raise; [reflexivity|].
      simpl for_. erewrite bind_ok by exact Hb.
      erewrite bind_raise; [reflexivity|].
      unfold sgn_body.
      erewrite bind_ok by (apply load_farr_ok, lookup_app_l_Some, Hx).
      erewrite bind_raise; reflexivity.
    + simpl in Hb. eexists.
      erewrite bind_raise; [reflexivity|].
      apply for_raise. exact Hb.
Qed.

Section WithLib.
Context {L : NumLib}.

(** X1: on a non-empty [t] and an [x] of another length, a call whose
    arguments pass the assertions fails in the first loop: with
    [IndexError] when [x] has at most one element, with [ValueError]
    otherwise. It never returns. *)
Theorem X1_mismatch_exception (s : store) t x tv xv precx alpha Ha :
  s !! t = Some (FArr tv) -> s !! x = Some (FArr xv) ->
  length xv <> length tv -> tv <> [] ->
  ~ precx == 0 -> ~ alpha == 0 -> Ha <> EmptyString ->
  exists s',
    test t x (Some precx) (Some alpha) (Some Ha) s =
    (s', Raise (mismatch_exn xv)).
Proof.
  intros Ht Hx Hne Hn Hp Ha0 Hh. unfold test.
  erewrite bind_ok.
  2:{ unfold assert_num. replace (Qeq_bool precx 0) with false; [reflexivity|].
      symmetry. apply not_true_iff_false. now rewrite Qeq_bool_iff. }
  erewrite bind_ok.
  2:{ unfold assert_num. replace (Qeq_bool alpha 0) with false; [reflexivity|].
      symmetry. apply not_true_iff_false. now rewrite Qeq_bool_iff. }
  erewrite bind_ok by (destruct Ha; [congruence|reflexivity]).
  destruct (sign_matrix_mismatch_exn s t x tv xv precx Ht Hx Hne Hn) as [s' Hs].
  exists s'. erewrite bind_raise; [reflexivity|exact Hs].
Qed.






End WithLib.

Lemma X1_mismatch_exception_witness :
  (length [1; 2] <> length [0; 1; 2] /\ [0; 1; 2] <> [] /\
   ~ (1 # 1000) == 0 /\ ~ (1 # 20) == 0 /\ "up" <> EmptyString) /\
  exists s',
    test (L := demo_lib) 0 1 (Some (1 # 1000)) (Some (1 # 20)) (Some "up")
      (caller [0; 1; 2] [1; 2]) = (s', Raise (mismatch_exn [1; 2])).
Proof.
  split; [repeat split; discriminate|].
  apply (X1_mismatch_exception (L := demo_lib) _ 0%nat 1%nat [0; 1; 2] [1; 2]);
    try reflexivity; discriminate.
Defined.



End Outcome.


(** ** The returned verdict and p-value *)

Module Returned.
Import Num Py Np Mkt Fun Vocab Run Whole Stat FloatFacts Mismatch Cases Holds Demo.
Local Open Scope Q_scope.
Local Open Scope string_scope.
Local Open Scope list_scope.

Section WithLib.
Context {L : NumLib}.

(** What a returning call was given and has computed. *)
Lemma test_ok_decide (s s' : store) t x tv xv precx alpha Ha r :
  s !! t = Some (FArr tv) -> s !! x = Some (FArr xv) ->
  test t x precx alpha Ha s = (s', Ok r) ->
  exists p a h,
    precx = Some p /\ alpha = Some a /\ Ha = Some h /\
    length xv = length tv /\
    decide_out tv xv (S_of p xv) (length (ties_of p xv)) (varS_of p xv) p a h
    = Ok r.
Proof.
  intros Ht Hx Hr.
  destruct (test_ok_inv _ _ _ _ _ _ _ _ _ _ Ht Hx Hr)
    as (Hlen & p & a & h & -> & -> & -> & Hp0 & Ha0 & Hh).
  exists p, a, h. repeat split; try assumption.
  rewrite (test_run s t x tv xv) in Hr by assumption.
  now injection Hr.
Qed.

(** X4: the verdict of every call that returns has exactly one of the
    words "accept" and "reject" and names the alternative that was
    tested; the alternative is one of the three that [test] knows. *)
Theorem X4_verdict_words (s s' : store) t x tv xv precx alpha Ha r :
  s !! t = Some (FArr tv) -> s !! x = Some (FArr xv) ->
  test t x precx alpha (Some Ha) s = (s', Ok r) ->
  recognized Ha /\
  xorb (contains "accept" (r_MK r)) (contains "reject" (r_MK r)) = true /\
  contains (alt_phrase Ha) (r_MK r) = true.
Proof.
  intros Ht Hx Hr.
  destruct (test_ok_decide _ _ _ _ _ _ _ _ _ _ Ht Hx Hr)
    as (p & a & h & _ & _ & [= <-] & _ & Hd).
  exact (verdict_words _ _ _ _ _ _ _ _ _ Hd).
Qed.

(** With a positive variance the Z-score is a number. *)
Lemma Zmk_finite S precx vS z :
  0 < vS -> Zmk S precx vS = Some z -> exists q, z = Fin q.
Proof.
  intros Hv. unfold Zmk, np_sqrt.
  replace (Qltb vS 0) with false by (symmetry; apply Qltb_ge; lra).
  pose proof (sqrtQ_pos vS Hv) as Hs.
  assert (E : Qeq_bool (sqrtQ vS) 0 = false).
  { apply not_true_iff_false. rewrite Qeq_bool_iff. lra. }
  simpl fl_div. rewrite E.
  repeat match goal with
         | |- context [if ?b then _ else _] => destruct b
         end; intros [= <-]; now eexists.
Qed.

(** X5: when the tie-corrected variance is positive, the p-value of
    every call that returns is a number in [[0, 1]]. *)
Theorem X5_p_value_in_range (s s' : store) t x tv xv precx alpha Ha r :
  s !! t = Some (FArr tv) -> s !! x = Some (FArr xv) ->
  0 < varS_of precx xv ->
  test t x (Some precx) alpha Ha s = (s', Ok r) ->
  fl_in 0 1 (r_p r).
Proof.
  intros Ht Hx Hv Hr.
  destruct (test_ok_decide _ _ _ _ _ _ _ _ _ _ Ht Hx Hr)
    as (p & a & h & [= <-] & _ & _ & _ & Hd).
  destruct (Zmk (S_of precx xv) precx (varS_of precx xv)) as [z|] eqn:Hz.
  - destruct (Zmk_finite _ _ _ _ Hv Hz) as [q ->].
    now apply (p_value_range _ _ _ _ _ _ _ _ _ _ Hd Hz).
  - destruct (verdict_words _ _ _ _ _ _ _ _ _ Hd) as [Hrec _].
    apply decide_out_ok in Hd as (mk & _ & _ & Hmk & _).
    rewrite Hz, MK_unbound in Hmk by exact Hrec. discriminate.
Qed.

(** X6: when the variance is positive and [S] is outside the band, the
    p-values that the calls with ["up"] and with ["down"] return on the
    same data add up to 1. *)
Theorem X6_one_sided_sum (s s1 s2 : store) t x tv xv precx alpha r1 r2 :
  s !! t = Some (FArr tv) -> s !! x = Some (FArr xv) ->
  0 < varS_of precx xv ->
  0 < inject_Z (S_of precx xv) - precx \/
  inject_Z (S_of precx xv) + precx < 0 ->
  test t x (Some precx) alpha (Some "up") s = (s1, Ok r1) ->
  test t x (Some precx) alpha (Some "down") s = (s2, Ok r2) ->
  fl_eq (fl_add (r_p r1) (r_p r2)) (Fin 1).
Proof.
  intros Ht Hx Hv Hout Hr1 Hr2.
  destruct (test_ok_decide _ _ _ _ _ _ _ _ _ _ Ht Hx Hr1)
    as (p & a & h & [= <-] & -> & [= <-] & _ & Hd1).
  destruct (test_ok_decide _ _ _ _ _ _ _ _ _ _ Ht Hx Hr2)
    as (p' & a' & h' & [= <-] & [= <-] & [= <-] & _ & Hd2).
  destruct (Zmk (S_of precx xv) precx (varS_of precx xv)) as [z|] eqn:Hz.
  - destruct (Zmk_finite _ _ _ _ Hv Hz) as [q ->].
    now apply (one_sided_sum _ _ _ _ _ _ _ _ _ _ Hd1 Hd2 Hz).
  - apply decide_out_ok in Hd1 as (mk & _ & _ & Hmk & _).
    rewrite Hz, MK_unbound in Hmk by (now left). discriminate.
Qed.

End WithLib.

Lemma X4_verdict_words_witness :
  exists s' r,
    test (L := demo_lib) 0 1 (Some (1 # 1000)) (Some (1 # 20)) (Some "up")
      (caller [0; 1; 2] [1; 2; 4]) = (s', Ok r) /\
    recognized "up" /\
    xorb (contains "accept" (r_MK r)) (contains "reject" (r_MK r)) = true /\
    contains (alt_phrase "up") (r_MK r) = true.
Proof.
  do 2 eexists. split; [vm_compute; reflexivity|].
  eapply (X4_verdict_words (L := demo_lib) (caller [0; 1; 2] [1; 2; 4]) _
            0%nat 1%nat [0; 1; 2] [1; 2; 4] (Some (1 # 1000)) (Some (1 # 20))
            "up");
    vm_compute; reflexivity.
Defined.

Lemma X5_p_value_in_range_witness :
  exists s' r,
    (0 < varS_of (1 # 1000) [1; 2; 4] /\
     test (L := demo_lib) 0 1 (Some (1 # 1000)) (Some (1 # 20)) (Some "down")
       (caller [0; 1; 2] [1; 2; 4]) = (s', Ok r)) /\
    fl_in 0 1 (r_p r).
Proof.
  do 2 eexists. split; [split; vm_compute; reflexivity|].
  eapply (X5_p_value_in_range (L := demo_lib) (caller [0; 1; 2] [1; 2; 4]) _
            0%nat 1%nat [0; 1; 2] [1; 2; 4] (1 # 1000) (Some (1 # 20))
            (Some "down"));
    vm_compute; reflexivity.
Defined.

Lemma X6_one_sided_sum_witness :
  exists s1 s2 r1 r2,
    (0 < varS_of (1 # 1000) [1; 2; 4] /\
     0 < inject_Z (S_of (1 # 1000) [1; 2; 4]) - (1 # 1000) /\
     test (L := demo_lib) 0 1 (Some (1 # 1000)) (Some (1 # 20)) (Some "up")
       (caller [0; 1; 2] [1; 2; 4]) = (s1, Ok r1) /\
     test (L := demo_lib) 0 1 (Some (1 # 1000)) (Some (1 # 20)) (Some "down")
       (caller [0; 1; 2] [1; 2; 4]) = (s2, Ok r2)) /\
    fl_eq (fl_add (r_p r1) (r_p r2)) (Fin 1).
Proof.
  do 4 eexists. split; [repeat split; vm_compute; reflexivity|].
  eapply (X6_one_sided_sum (L := demo_lib) (caller [0; 1; 2] [1; 2; 4]) _ _
            0%nat 1%nat [0; 1; 2] [1; 2; 4] (1 # 1000) (Some (1 # 20)));
    first [left; vm_compute; reflexivity|vm_compute; reflexivity].
Defined.

End Returned.


(** ** Bounds on the statistic and on the tie groups *)

Module Bounds.
Import Num Py Np Mkt Fun Vocab Run Whole Stat Neg FloatFacts Ties Demo.
Local Open Scope Q_scope.
Local Open Scope list_scope.

Lemma sgn1_range precx d : (-1 <= sgn1 precx d <= 1)%Z.
Proof.
  unfold sgn1, np_sign, Qsign.
  destruct (Qltb _ _); simpl; [lia|].
  destruct (Qnum d); simpl; lia.
Qed.

Lemma Zsum_sgn1_range precx (xi : Q) (r : list Q) :
  (- Z.of_nat (length r) <= Zsum (map (fun v => sgn1 precx (v - xi)) r)
   <= Z.of_nat (length r))%Z.
Proof.
  induction r as [|v r IH]; simpl map; simpl Zsum; simpl length; [lia|].
  pose proof (sgn1_range precx (v - xi)). lia.
Qed.

Lemma pair_sum_range precx xv :
  (- (Z.of_nat (length xv) * (Z.of_nat (length xv) - 1)) <=
   2 * pair_sum precx xv <=
   Z.of_nat (length xv) * (Z.of_nat (length xv) - 1))%Z.
Proof.
  induction xv as [|xi r IH]; [simpl; lia|].
  simpl pair_sum. simpl length.
  pose proof (Zsum_sgn1_range precx xi r). nia.
Qed.

(** X7: whatever the series and the tolerance, the statistic that the
    call computes lies between [-n(n-1)/2] and [n(n-1)/2]. *)
Theorem X7_S_range (s : store) t x tv xv precx :
  s !! t = Some (FArr tv) -> s !! x = Some (FArr xv) ->
  length xv = length tv ->
  exists s1 sgn S,
    sign_matrix t x precx s = (s1, Ok (length xv, sgn)) /\
    stat_S sgn s1 = (s1, Ok S) /\
    (- (Z.of_nat (length xv) * (Z.of_nat (length xv) - 1) / 2) <= S <=
     Z.of_nat (length xv) * (Z.of_nat (length xv) - 1) / 2)%Z.
Proof.
  intros Ht Hx Hlen.
  exists (s ++ IMat (sgn_of precx xv) :: map (tmp_of precx xv) xv),
    (length s), (S_of precx xv).
  split; [|split].
  - rewrite (sign_matrix_run s t x tv xv) by assumption. now rewrite Hlen.
  - apply stat_S_run.
  - rewrite S_of_pair_sum. pose proof (pair_sum_range precx xv) as H.
    set (n := Z.of_nat (length xv)) in *.
    assert (Hev : exists k, (n * (n - 1) = 2 * k)%Z).
    { destruct (Z.Even_or_Odd n) as [[k Hk]|[k Hk]].
      - exists (k * (n - 1))%Z. lia.
      - exists (n * k)%Z. nia. }
    destruct Hev as [k Hk]. rewrite Hk in *.
    rewrite (Z.mul_comm 2 k), Z.div_mul by lia. lia.
Qed.






Lemma X7_S_range_witness :
  length [1; 2; 4] = length [0; 1; 2] /\
  exists s1 sgn S,
    sign_matrix 0 1 (1 # 1000) (caller [0; 1; 2] [1; 2; 4]) =
    (s1, Ok (length [1; 2; 4], sgn)) /\
    stat_S sgn s1 = (s1, Ok S) /\
    (- (Z.of_nat (length [1; 2; 4]) * (Z.of_nat (length [1; 2; 4]) - 1) / 2)
     <= S <=
     Z.of_nat (length [1; 2; 4]) * (Z.of_nat (length [1; 2; 4]) - 1) / 2)%Z.
Proof.
  split; [reflexivity|].
  apply (X7_S_range (caller [0; 1; 2] [1; 2; 4]) 0%nat 1%nat
           [0; 1; 2] [1; 2; 4]); reflexivity.
Defined.



End Bounds.


(** ** The time values, and symmetries of the data *)

Module Symmetry.
Import Num Py Np Mkt Fun Vocab Run Whole Stat Neg FloatFacts Fit Demo.
Import Mismatch Cases Holds Returned.
Local Open Scope Q_scope.
Local Open Scope string_scope.
Local Open Scope list_scope.

(** *** Reversing the series *)

Lemma pair_sum_snoc precx (l : list Q) (a : Q) :
  pair_sum precx (l ++ [a]) =
  (pair_sum precx l + Zsum (map (fun v => sgn1 precx (a - v)) l))%Z.
Proof.
  induction l as [|v l IH]; [reflexivity|].
  simpl. rewrite IH, map_app, Zsum_app. simpl. lia.
Qed.

Lemma Zsum_rev (l : list Z) : Zsum (rev l) = Zsum l.
Proof.
  induction l as [|v l IH]; [reflexivity|].
  simpl. rewrite Zsum_app, IH. simpl. lia.
Qed.

Lemma pair_sum_rev precx xv :
  pair_sum precx (rev xv) = (- pair_sum precx xv)%Z.
Proof.
  induction xv as [|xi r IH]; [reflexivity|].
  simpl rev. rewrite pair_sum_snoc, IH, map_rev, Zsum_rev. simpl pair_sum.
  assert (E : map (fun v => sgn1 precx (xi - v)) r =
              map Z.opp (map (fun v => sgn1 precx (v - xi)) r)).
  { rewrite map_map. apply map_ext. intros v. rewrite <- sgn1_opp.
    apply sgn1_proper; [reflexivity|ring]. }
  rewrite E, Zsum_opp. lia.
Qed.

(** X10: the statistic of the series read backwards is the negated
    statistic. *)
Theorem X10_S_reversed (s s2 : store) t x t' x' tv xv precx :
  s !! t = Some (FArr tv) -> s !! x = Some (FArr xv) ->
  s2 !! t' = Some (FArr tv) -> s2 !! x' = Some (FArr (rev xv)) ->
  length xv = length tv ->
  exists s1 sgn S s1' sgn',
    sign_matrix t x precx s = (s1, Ok (length xv, sgn)) /\
    stat_S sgn s1 = (s1, Ok S) /\
    sign_matrix t' x' precx s2 = (s1', Ok (length xv, sgn')) /\
    stat_S sgn' s1' = (s1', Ok (- S)%Z).
Proof.
  intros Ht Hx Ht' Hx' Hlen.
  do 5 eexists. split; [|split; [|split]].
  - rewrite (sign_matrix_run s t x tv xv) by assumption.
    rewrite Hlen. reflexivity.
  - apply stat_S_run.
  - rewrite (sign_matrix_run s2 t' x' tv (rev xv))
      by (rewrite ?length_rev; assumption).
    rewrite Hlen. reflexivity.
  - rewrite stat_S_run. f_equal. f_equal.
    change (S_of precx (rev xv) = (- S_of precx xv)%Z).
    rewrite !S_of_pair_sum. apply pair_sum_rev.
Qed.


Section WithLib.
Context {L : NumLib}.

(** *** The verdict and the p-value do not look at the time values *)

(** X12: the verdict and the p-value depend on the number of time
    points only: with any other time values, of the same number, the
    call returns the same verdict and the same p-value. *)
Theorem X12_time_values (s s2 s' : store) t x t' x' tv tv' xv
    precx alpha Ha r :
  s !! t = Some (FArr tv) -> s !! x = Some (FArr xv) ->
  s2 !! t' = Some (FArr tv') -> s2 !! x' = Some (FArr xv) ->
  length tv' = length tv ->
  test t x precx alpha Ha s = (s', Ok r) ->
  exists s2' r',
    test t' x' precx alpha Ha s2 = (s2', Ok r') /\
    r_MK r' = r_MK r /\ r_p r' = r_p r.
Proof.
  intros Ht Hx Ht' Hx' Hlen' Hr.
  destruct (test_ok_inv _ _ _ _ _ _ _ _ _ _ Ht Hx Hr)
    as (Hlen & p & a & h & -> & -> & -> & Hp0 & Ha0 & Hh).
  destruct (test_ok_decide _ _ _ _ _ _ _ _ _ _ Ht Hx Hr)
    as (p1 & a1 & h1 & [= <-] & [= <-] & [= <-] & _ & Hd).
  apply decide_out_ok in Hd as (mk & m & pv & Hmk & _ & Hpv & ->).
  assert (Hl2 : length xv = length tv') by congruence.
  destruct (slope_ok tv' xv Hl2) as [m' Hm'].
  rewrite (test_run s2 t' x' tv' xv) by assumption.
  unfold decide_out. rewrite Hmk, Hm', Hpv.
  do 2 eexists. split; [reflexivity|]. split; reflexivity.
Qed.

(** *** Time points that are all equal *)

Lemma Qsum_zero (a : list Q) : Forall (fun v => v == 0) a -> Qsum a == 0.
Proof.
  induction 1 as [|v a Hv _ IH]; simpl; [reflexivity|]. rewrite Hv, IH. ring.
Qed.







(** *** The two-sided verdict of the negated series *)

#[local] Instance fl_abs_proper : Proper (fl_eq ==> fl_eq) fl_abs.
Proof. intros [] [] H; simpl in *; try tauto. now rewrite H. Qed.

Lemma fl_abs_neg a : fl_eq (fl_abs (fl_neg a)) (fl_abs a).
Proof. destruct a; simpl; try reflexivity. apply Qabs_opp. Qed.

(** X14: for a positive tolerance, when the two-sided calls on [x] and
    on [-x] both return, their verdicts are the same. *)
Theorem X14_two_sided_negated (s1 s2 s1' s2' : store) t x t' x' tv xv
    precx alpha r1 r2 :
  s1 !! t = Some (FArr tv) -> s1 !! x = Some (FArr xv) ->
  s2 !! t' = Some (FArr tv) -> s2 !! x' = Some (FArr (map Qopp xv)) ->
  0 < precx ->
  test t x (Some precx) (Some alpha) (Some "upordown") s1 = (s1', Ok r1) ->
  test t' x' (Some precx) (Some alpha) (Some "upordown") s2 = (s2', Ok r2) ->
  r_MK r2 = r_MK r1.
Proof.
  intros Ht Hx Ht' Hx' Hp Hr1 Hr2.
  destruct (test_ok_decide _ _ _ _ _ _ _ _ _ _ Ht Hx Hr1)
    as (p & a & h & [= <-] & [= <-] & [= <-] & _ & Hd1).
  destruct (test_ok_decide _ _ _ _ _ _ _ _ _ _ Ht' Hx' Hr2)
    as (p' & a' & h' & [= <-] & [= <-] & [= <-] & _ & Hd2).
  apply decide_out_ok in Hd1 as (mk1 & m1 & pv1 & Hmk1 & _ & _ & ->).
  apply decide_out_ok in Hd2 as (mk2 & m2 & pv2 & Hmk2 & _ & _ & ->).
  rewrite S_of_opp, varS_of_opp in Hmk2. simpl r_MK.
  destruct (Zmk (S_of precx xv) precx (varS_of precx xv)) as [z1|] eqn:Hz1.
  2:{ rewrite MK_unbound in Hmk1 by (right; now right). discriminate. }
  destruct (Zmk (- S_of precx xv) precx (varS_of precx xv)) as [z2|] eqn:Hz2.
  2:{ rewrite MK_unbound in Hmk2 by (right; now right). discriminate. }
  rewrite MK_upordown in Hmk1, Hmk2.
  injection Hmk1 as <-. injection Hmk2 as <-.
  pose proof (Zmk_opp _ _ _ _ _ Hp Hz1 Hz2) as Hz.
  assert (E : fl_geb (fl_abs z2) (ndtri (1 - alpha / 2)) =
              fl_geb (fl_abs z1) (ndtri (1 - alpha / 2))).
  { unfold fl_geb. apply fl_leb_proper; [reflexivity|].
    rewrite Hz. apply fl_abs_neg. }
  now rewrite E.
Qed.

End WithLib.

Lemma X10_S_reversed_witness :
  length [1; 2; 4] = length [0; 1; 2] /\
  exists s1 sgn S s1' sgn',
    sign_matrix 0 1 (1 # 1000) (caller [0; 1; 2] [1; 2; 4]) =
    (s1, Ok (length [1; 2; 4], sgn)) /\
    stat_S sgn s1 = (s1, Ok S) /\
    sign_matrix 0 1 (1 # 1000) (caller [0; 1; 2] [4; 2; 1]) =
    (s1', Ok (length [1; 2; 4], sgn')) /\
    stat_S sgn' s1' = (s1', Ok (- S)%Z).
Proof.
  split; [reflexivity|].
  apply (X10_S_reversed (caller [0; 1; 2] [1; 2; 4])
           (caller [0; 1; 2] [4; 2; 1]) 0%nat 1%nat 0%nat 1%nat
           [0; 1; 2] [1; 2; 4]); reflexivity.
Defined.


Lemma X12_time_values_witness :
  exists s' r,
    (length [1990; 2000; 2024] = length [0; 1; 2] /\
     test (L := demo_lib) 0 1 (Some (1 # 1000)) (Some (1 # 20)) (Some "up")
       (caller [0; 1; 2] [1; 2; 4]) = (s', Ok r)) /\
    exists s2' r',
      test (L := demo_lib) 0 1 (Some (1 # 1000)) (Some (1 # 20)) (Some "up")
        (caller [1990; 2000; 2024] [1; 2; 4]) = (s2', Ok r') /\
      r_MK r' = r_MK r /\ r_p r' = r_p r.
Proof.
  do 2 eexists. split; [split; [reflexivity|vm_compute; reflexivity]|].
  eapply (X12_time_values (L := demo_lib) (caller [0; 1; 2] [1; 2; 4])
            (caller [1990; 2000; 2024] [1; 2; 4]) _ 0%nat 1%nat 0%nat 1%nat
            [0; 1; 2] [1990; 2000; 2024] [1; 2; 4]
            (Some (1 # 1000)) (Some (1 # 20)) (Some "up"));
    vm_compute; reflexivity.
Defined.


Lemma X14_two_sided_negated_witness :
  exists s1' s2' r1 r2,
    (0 < 1 # 1000 /\
     test (L := demo_lib) 0 1 (Some (1 # 1000)) (Some (1 # 2))
       (Some "upordown") (caller [0; 1; 2] [1; 2; 4]) = (s1', Ok r1) /\
     test (L := demo_lib) 0 1 (Some (1 # 1000)) (Some (1 # 2))
       (Some "upordown") (caller [0; 1; 2] [-1; -2; -4]) = (s2', Ok r2)) /\
    r_MK r2 = r_MK r1.
Proof.
  do 4 eexists. split.
  - split; [reflexivity|]. split; vm_compute; reflexivity.
  - eapply (X14_two_sided_negated (L := demo_lib) (caller [0; 1; 2] [1; 2; 4])
              (caller [0; 1; 2] [-1; -2; -4]) _ _ 0%nat 1%nat 0%nat 1%nat
              [0; 1; 2] [1; 2; 4] (1 # 1000) (1 # 2));
      vm_compute; reflexivity.
Defined.

End Symmetry.


(** ** Adding a constant to every measurement *)

Module Shift.
Import Num Py Np Mkt Fun Vocab Run Whole Stat Neg FloatFacts Demo.
Import Mismatch Cases Holds Returned.
Local Open Scope Q_scope.
Local Open Scope string_scope.
Local Open Scope list_scope.

Lemma sgn_of_shift precx c xv : sgn_of precx (shift c xv) = sgn_of precx xv.
Proof.
  unfold sgn_of, shift. rewrite map_map. apply map_ext. intros xi.
  unfold sgn_row. rewrite map_map. apply map_ext. intros v.
  apply sgn1_proper; [reflexivity|ring].
Qed.

Lemma tie_values_shift precx c xv :
  tie_values precx (shift c xv) = shift c (tie_values precx xv).
Proof.
  unfold tie_values, marked_of. rewrite sgn_of_shift.
  induction (map fst (np_where2 _)) as [|i idx IH]; [reflexivity|].
  simpl. unfold shift at 1. rewrite map_fmap, list_lookup_fmap.
  destruct (xv !! i); simpl; [f_equal|]; exact IH.
Qed.

Lemma InA_shift u c (a : list Q) :
  InA Qeq u (map (fun v => v - c) a) <-> InA Qeq (u + c) a.
Proof.
  induction a as [|v a IH]; simpl; [now rewrite !InA_nil|].
  rewrite !InA_cons, IH. split; (intros [H|H]; [left|now right]).
  - rewrite H. ring.
  - rewrite <- H. ring.
Qed.

Lemma NoDupA_shift c (a : list Q) :
  NoDupA Qeq a -> NoDupA Qeq (map (fun v => v - c) a).
Proof.
  induction 1 as [|v a Hv _ IH]; simpl; constructor; [|exact IH].
  rewrite InA_shift. intros H. apply Hv.
  assert (E : v - c + c == v) by ring. now rewrite E in H.
Qed.

Lemma InA_shift_up u c (a : list Q) :
  InA Qeq u (shift c a) <-> InA Qeq (u - c) a.
Proof.
  unfold shift. induction a as [|v a IH]; simpl; [now rewrite !InA_nil|].
  rewrite !InA_cons, IH. split; (intros [H|H]; [left|now right]).
  - rewrite H. ring.
  - rewrite <- H. ring.
Qed.

Lemma ties_of_shift precx c xv :
  PermutationA Qeq (map (fun v => v - c) (ties_of precx (shift c xv)))
    (ties_of precx xv).
Proof.
  apply (NoDupA_equivlistA_PermutationA Q_Setoid).
  - apply NoDupA_shift, np_unique_NoDupA.
  - apply np_unique_NoDupA.
  - intros u. unfold ties_of.
    rewrite InA_shift, !np_unique_InA, tie_values_shift, InA_shift_up.
    assert (E : u + c - c == u) by ring. now rewrite E.
Qed.

Lemma group_size_shift precx c xv tk :
  group_size precx (shift c xv) tk = group_size precx xv (tk - c).
Proof.
  unfold group_size, shift. do 3 f_equal. rewrite map_map. apply map_ext.
  intros v. apply Qltb_proper; [|reflexivity]. apply Qabs_wd. ring.
Qed.

Lemma term2_shift precx c xv :
  term2 (q_of precx (shift c xv)) = term2 (q_of precx xv).
Proof.
  unfold term2, q_of. rewrite !map_map.
  erewrite <- (Zsum_PermutationA _ _ (ties_of precx xv)).
  - rewrite map_map. f_equal. apply map_ext. intros tk.
    now rewrite group_size_shift.
  - intros tk tk' Htk. now rewrite Htk.
  - apply ties_of_shift.
Qed.

Lemma PermutationA_same_length (a b : list Q) :
  PermutationA Qeq a b -> length a = length b.
Proof.
  induction 1 as [|u v a b _ _ IH|u v a|a b c _ IH1 _ IH2]; simpl;
    congruence.
Qed.

Lemma length_ties_shift precx c xv :
  length (ties_of precx (shift c xv)) = length (ties_of precx xv).
Proof.
  rewrite <- (PermutationA_same_length _ _ (ties_of_shift precx c xv)).
  now rewrite length_map.
Qed.

Lemma S_of_shift precx c xv : S_of precx (shift c xv) = S_of precx xv.
Proof. unfold S_of. now rewrite sgn_of_shift. Qed.

Lemma varS_of_shift precx c xv :
  varS_of precx (shift c xv) = varS_of precx xv.
Proof.
  unfold varS_of, varS, shift. rewrite length_map.
  fold (shift c xv). now rewrite term2_shift.
Qed.

Section WithLib.
Context {L : NumLib}.

(** X15: adding a constant to every measurement changes neither the
    verdict nor the p-value: the statistic looks at differences only
    and the tie groups move with the values. (Sums and differences are
    exact here; in binary64 this needs the shifted values and their
    differences to be representable.) *)
Theorem X15_shifted_series (s s2 s' : store) t x t' x' tv xv
    precx alpha Ha c r :
  s !! t = Some (FArr tv) -> s !! x = Some (FArr xv) ->
  s2 !! t' = Some (FArr tv) ->
  s2 !! x' = Some (FArr (map (fun v => v + c) xv)) ->
  test t x precx alpha Ha s = (s', Ok r) ->
  exists s2' r',
    test t' x' precx alpha Ha s2 = (s2', Ok r') /\
    r_MK r' = r_MK r /\ r_p r' = r_p r.
Proof.
  intros Ht Hx Ht' Hx' Hr. fold (shift c xv) in Hx'.
  destruct (test_ok_inv _ _ _ _ _ _ _ _ _ _ Ht Hx Hr)
    as (Hlen & p & a & h & -> & -> & -> & Hp0 & Ha0 & Hh).
  destruct (test_ok_decide _ _ _ _ _ _ _ _ _ _ Ht Hx Hr)
    as (p1 & a1 & h1 & [= <-] & [= <-] & [= <-] & _ & Hd).
  apply decide_out_ok in Hd as (mk & m & pv & Hmk & _ & Hpv & ->).
  assert (Hl2 : length (shift c xv) = length tv).
  { unfold shift. now rewrite length_map. }
  destruct (slope_ok tv (shift c xv) Hl2) as [m' Hm'].
  rewrite (test_run s2 t' x' tv (shift c xv)) by assumption.
  unfold decide_out.
  rewrite S_of_shift, varS_of_shift, length_ties_shift, Hmk, Hm', Hpv.
  do 2 eexists. split; [reflexivity|]. split; reflexivity.
Qed.

End WithLib.

Lemma X15_shifted_series_witness :
  exists s' r,
    test (L := demo_lib) 0 1 (Some (1 # 1000)) (Some (1 # 20)) (Some "up")
      (caller [0; 1; 2] [1; 2; 4]) = (s', Ok r) /\
    exists s2' r',
      test (L := demo_lib) 0 1 (Some (1 # 1000)) (Some (1 # 20)) (Some "up")
        (caller [0; 1; 2] (map (fun v => v + 10) [1; 2; 4])) = (s2', Ok r') /\
      r_MK r' = r_MK r /\ r_p r' = r_p r.
Proof.
  do 2 eexists. split; [vm_compute; reflexivity|].
  eapply (X15_shifted_series (L := demo_lib) (caller [0; 1; 2] [1; 2; 4])
            (caller [0; 1; 2] (map (fun v => v + 10) [1; 2; 4])) _
            0%nat 1%nat 0%nat 1%nat [0; 1; 2] [1; 2; 4]
            (Some (1 # 1000)) (Some (1 # 20)) (Some "up") 10);
    first [reflexivity|vm_compute; reflexivity].
Defined.

End Shift.


(** ** Data whose values are equal or clearly apart *)

Module Grid.
Import Num Py Np Mkt Fun Vocab Run Whole Stat Neg FloatFacts Ties Demo.
Import Mismatch Cases Holds Returned Bounds.
Local Open Scope Q_scope.
Local Open Scope string_scope.
Local Open Scope list_scope.

(** *** The term of a tie group *)

Lemma fq_nonneg q : (0 <= q)%Z -> (0 <= fq q)%Z.
Proof. unfold fq. intros H. destruct (Z.eq_dec q 0%Z) as [->|Hn]; [lia|nia]. Qed.

Lemma fq_super a b : (0 <= a)%Z -> (0 <= b)%Z -> (fq a + fq b <= fq (a + b))%Z.
Proof.
  intros Ha Hb. unfold fq.
  assert (H : ((a + b) * (a + b - 1) * (2 * (a + b) + 5)
               - a * (a - 1) * (2 * a + 5) - b * (b - 1) * (2 * b + 5)
               = 6 * (a * b) * (a + b + 1))%Z) by ring.
  assert (0 <= a * b)%Z by nia. nia.
Qed.

Lemma fq_super_strict a b :
  (1 <= a)%Z -> (1 <= b)%Z -> (fq a + fq b < fq (a + b))%Z.
Proof.
  intros Ha Hb. unfold fq.
  assert (H : ((a + b) * (a + b - 1) * (2 * (a + b) + 5)
               - a * (a - 1) * (2 * a + 5) - b * (b - 1) * (2 * b + 5)
               = 6 * (a * b) * (a + b + 1))%Z) by ring.
  assert (1 <= a * b)%Z by nia. nia.
Qed.

Lemma fq_mono a b : (0 <= a <= b)%Z -> (fq a <= fq b)%Z.
Proof.
  intros [Ha Hab]. replace b with (a + (b - a))%Z by lia.
  pose proof (fq_super a (b - a) Ha ltac:(lia)).
  pose proof (fq_nonneg (b - a) ltac:(lia)). lia.
Qed.

Lemma Zsum_fq_super (qs : list Z) :
  Forall (fun q => (0 <= q)%Z) qs ->
  (0 <= Zsum qs /\ Zsum (map fq qs) <= fq (Zsum qs))%Z.
Proof.
  induction 1 as [|q qs Hq _ [IH0 IH]]; simpl; [split; [lia|reflexivity]|].
  split; [lia|]. pose proof (fq_super q (Zsum qs) Hq IH0). lia.
Qed.

(** *** Counting *)

Lemma where_from_count k (mask : list bool) :
  length (where_from k mask) = length (List.filter id mask).
Proof.
  revert k. induction mask as [|b mask IH]; intros k; [reflexivity|].
  simpl. destruct b; simpl; now rewrite IH.
Qed.

Lemma group_size_count precx xv tk :
  group_size precx xv tk =
  Z.of_nat (countb (fun v => Qltb (Qabs (v - tk)) precx) xv).
Proof.
  unfold group_size, np_where, countb. f_equal.
  rewrite where_from_count. induction xv as [|v xv IH]; [reflexivity|].
  cbn [map List.filter]. destruct (Qltb _ _); cbn [id length]; now rewrite IH.
Qed.

Lemma countb_ext (p q : Q -> bool) l :
  (forall v, In v l -> p v = q v) -> countb p l = countb q l.
Proof.
  unfold countb. induction l as [|v l IH]; intros H; [reflexivity|].
  simpl. rewrite (H v (or_introl eq_refl)).
  destruct (q v); simpl; rewrite IH; auto using in_cons.
Qed.

Lemma countb_le (p q : Q -> bool) l :
  (forall v, In v l -> p v = true -> q v = true) ->
  (countb p l <= countb q l)%nat.
Proof.
  unfold countb. induction l as [|v l IH]; intros H; [reflexivity|].
  simpl. assert (IH' := IH (fun u Hu => H u (in_cons _ _ _ Hu))).
  destruct (p v) eqn:Ep.
  - rewrite (H v (or_introl eq_refl) Ep). simpl. lia.
  - destruct (q v); simpl; lia.
Qed.

Lemma countb_or (p q : Q -> bool) l :
  (forall v, In v l -> p v = true -> q v = true -> False) ->
  countb (fun v => p v || q v)%bool l = (countb p l + countb q l)%nat.
Proof.
  unfold countb. induction l as [|v l IH]; intros H; [reflexivity|].
  simpl. assert (IH' := IH (fun u Hu => H u (in_cons _ _ _ Hu))).
  pose proof (H v (or_introl eq_refl)) as Hv.
  destruct (p v), (q v); simpl; [exfalso; now apply Hv|lia..].
Qed.

Lemma countb_negb (p : Q -> bool) l :
  (countb p l + countb (fun v => negb (p v)) l = length l)%nat.
Proof.
  unfold countb. induction l as [|v l IH]; [reflexivity|].
  simpl. destruct (p v); simpl; lia.
Qed.

Lemma countb_pos (p : Q -> bool) l v :
  In v l -> p v = true -> (1 <= countb p l)%nat.
Proof.
  unfold countb. induction l as [|u l IH]; [intros []|].
  intros [->|Hin] Hp; simpl.
  - rewrite Hp. simpl. lia.
  - destruct (p u); simpl; [lia|]. now apply IH.
Qed.

(** The members of the groups of pairwise different values, counted
    once. *)
Lemma count_groups (U xv : list Q) :
  NoDupA Qeq U ->
  Zsum (map (fun tk => Z.of_nat (countb (fun v => Qeq_bool v tk) xv)) U) =
  Z.of_nat (countb (fun v => existsb (Qeq_bool v) U) xv).
Proof.
  induction 1 as [|tk U Htk _ IH]; simpl.
  - unfold countb. induction xv as [|v xv IHx]; [reflexivity|exact IHx].
  - rewrite IH, countb_or; [lia|].
    intros v _ H1 H2. apply Htk. apply Qeq_bool_eq in H1.
    apply existsb_exists in H2 as (u & Hu & H2). apply Qeq_bool_eq in H2.
    apply InA_alt. exists u. split; [|exact Hu]. now rewrite <- H1.
Qed.

(** *** Ties of separated data are equalities *)

Lemma separated_In precx xv u v :
  separated precx xv -> In u xv -> In v xv ->
  u == v \/ precx <= Qabs (v - u).
Proof.
  unfold separated. induction xv as [|xi r IH]; intros Hs Hu Hv; [easy|].
  destruct Hs as [Hxi Hr]. rewrite Forall_forall in Hxi.
  destruct Hu as [<-|Hu], Hv as [<-|Hv].
  - left. reflexivity.
  - apply Hxi. now apply list_elem_of_In.
  - destruct (Hxi u) as [H|H]; [now apply list_elem_of_In| |].
    + left. now symmetry.
    + right. now rewrite Qabs_Qminus.
  - now apply IH.
Qed.

Lemma tie_is_equality precx xv u v :
  0 < precx -> separated precx xv -> In u xv -> In v xv ->
  Qltb (Qabs (v - u)) precx = Qeq_bool v u.
Proof.
  intros Hp Hs Hu Hv.
  destruct (separated_In precx xv u v Hs Hu Hv) as [He|Ha].
  - rewrite (Qeq_eq_bool v u) by (now symmetry).
    apply Qltb_lt, Qabs_Qlt_condition. split; lra.
  - replace (Qltb (Qabs (v - u)) precx) with false
      by (symmetry; now apply Qltb_ge).
    symmetry. apply not_true_iff_false. rewrite Qeq_bool_iff. intros He.
    assert (H0 : Qabs (v - u) == 0).
    { assert (E : v - u == 0) by lra. now rewrite E. }
    lra.
Qed.

(** A tie value is a value of the series. *)
Lemma tie_values_In precx xv v : In v (tie_values precx xv) -> In v xv.
Proof.
  unfold tie_values. intros H.
  apply list_elem_of_In, list_elem_of_omap in H as (i & _ & Hi).
  apply list_elem_of_In, list_elem_of_lookup. eauto.
Qed.

Lemma ties_of_member precx xv tk :
  In tk (ties_of precx xv) -> exists m, In m xv /\ tk == m.
Proof.
  intros H.
  assert (Hin : InA Qeq tk (tie_values precx xv)).
  { apply np_unique_InA, InA_alt. exists tk. split; [reflexivity|exact H]. }
  apply InA_alt in Hin as (m & Heq & Hm).
  exists m. split; [now apply tie_values_In in Hm|exact Heq].
Qed.

Lemma group_size_separated precx xv tk :
  0 < precx -> separated precx xv -> In tk (ties_of precx xv) ->
  group_size precx xv tk = Z.of_nat (countb (fun v => Qeq_bool v tk) xv).
Proof.
  intros Hp Hs Htk. destruct (ties_of_member _ _ _ Htk) as (m & Hm & Heq).
  rewrite group_size_count. f_equal. apply countb_ext. intros v Hv.
  rewrite Heq. now apply (tie_is_equality precx xv).
Qed.

(** *** The correction is smaller than the first term *)

Lemma Zsum_filter_split (g : Q -> Z) (p : Q -> bool) (U : list Q) :
  Zsum (map g U) =
  (Zsum (map g (List.filter p U)) +
   Zsum (map g (List.filter (fun v => negb (p v)) U)))%Z.
Proof.
  induction U as [|u U IH]; [reflexivity|].
  simpl. destruct (p u); simpl; lia.
Qed.

Lemma NoDupA_filter (p : Q -> bool) (U : list Q) :
  NoDupA Qeq U -> NoDupA Qeq (List.filter p U).
Proof.
  induction 1 as [|u U Hu _ IH]; simpl; [constructor|].
  destruct (p u); [|exact IH]. constructor; [|exact IH].
  intros H. apply Hu. apply InA_alt in H as (w & Hw & Hin).
  apply filter_In in Hin as [Hin _]. apply InA_alt. now exists w.
Qed.

(** The groups of the values equal to [a]: at most one. *)
Lemma Zsum_one_class (g : Q -> Z) (a : Q) (U : list Q) (c : Z) :
  NoDupA Qeq U -> (0 <= c)%Z ->
  (forall u, In u U -> u == a -> g u = c) ->
  (Zsum (map g (List.filter (fun u => Qeq_bool u a) U)) <= c)%Z.
Proof.
  intros Hnd Hc Hg.
  assert (Hall : forall u, In u (List.filter (fun u => Qeq_bool u a) U) ->
                           u == a /\ In u U).
  { intros u Hu. apply filter_In in Hu as [Hu Hb].
    split; [now apply Qeq_bool_eq|exact Hu]. }
  pose proof (NoDupA_filter (fun u => Qeq_bool u a) U Hnd) as Hnd'.
  destruct (List.filter _ U) as [|u [|u' l]]; simpl.
  - exact Hc.
  - destruct (Hall u (or_introl eq_refl)) as [Hu Hin].
    rewrite (Hg u Hin Hu). lia.
  - exfalso. inversion Hnd' as [|? ? Hnot _]; subst. apply Hnot.
    left. destruct (Hall u (or_introl eq_refl)) as [Hu _].
    destruct (Hall u' (or_intror (or_introl eq_refl))) as [Hu' _].
    now rewrite Hu, Hu'.
Qed.

Lemma term2_lt_term1 precx xv a b :
  0 < precx -> separated precx xv ->
  In a xv -> In b xv -> ~ b == a ->
  (term2 (q_of precx xv) < term1 (length xv))%Z.
Proof.
  intros Hp Hs Ha Hb Hab.
  set (cnt := fun tk => Z.of_nat (countb (fun v => Qeq_bool v tk) xv)).
  set (U := ties_of precx xv).
  assert (Hnd : NoDupA Qeq U) by apply np_unique_NoDupA.
  assert (Ht2 : term2 (q_of precx xv) = Zsum (map (fun tk => fq (cnt tk)) U)).
  { unfold term2, q_of. fold U. rewrite map_map. f_equal.
    apply map_ext_in. intros tk Htk.
    rewrite (group_size_separated precx xv tk Hp Hs Htk). reflexivity. }
  rewrite Ht2.
  rewrite (Zsum_filter_split _ (fun u => Qeq_bool u a) U).
  set (A := cnt a).
  set (n := Z.of_nat (length xv)).
  assert (HA : (1 <= A)%Z).
  { unfold A, cnt. apply (Nat2Z.inj_le 1).
    apply (countb_pos _ _ a Ha). apply Qeq_bool_refl. }
  assert (HnA : (1 <= n - A)%Z).
  { unfold A, cnt, n.
    pose proof (countb_negb (fun v => Qeq_bool v a) xv) as Hsum.
    pose proof (countb_pos (fun v => negb (Qeq_bool v a)) xv b Hb) as Hpos.
    assert (1 <= countb (fun v => negb (Qeq_bool v a)) xv)%nat.
    { apply Hpos. apply negb_true_iff, not_true_iff_false.
      now rewrite Qeq_bool_iff. }
    lia. }
  (* the class of [a] *)
  assert (H1 : (Zsum (map (fun tk => fq (cnt tk))
                        (List.filter (fun u => Qeq_bool u a) U)) <= fq A)%Z).
  { apply Zsum_one_class; [exact Hnd|apply fq_nonneg; lia|].
    intros u _ Hu. unfold A, cnt. do 2 f_equal. apply countb_ext.
    intros v _. now rewrite Hu. }
  (* the other classes *)
  set (U2 := List.filter (fun u => negb (Qeq_bool u a)) U).
  assert (H2 : (Zsum (map (fun tk => fq (cnt tk)) U2) <= fq (n - A))%Z).
  { assert (Hnd2 : NoDupA Qeq U2) by (now apply NoDupA_filter).
    pose proof (Zsum_fq_super (map cnt U2)) as Hsup.
    rewrite map_map in Hsup.
    destruct Hsup as [H0 Hsup].
    { apply Forall_forall. intros q Hq.
      apply list_elem_of_In, in_map_iff in Hq as (u & <- & _).
      unfold cnt. lia. }
    etransitivity; [exact Hsup|]. apply fq_mono. split; [exact H0|].
    unfold cnt at 1. rewrite (count_groups U2 xv Hnd2).
    unfold n, A, cnt.
    pose proof (countb_negb (fun v => Qeq_bool v a) xv) as Hsum.
    assert (Hle : (countb (fun v => existsb (Qeq_bool v) U2) xv <=
                   countb (fun v => negb (Qeq_bool v a)) xv)%nat).
    { apply countb_le. intros v _ Hv.
      apply existsb_exists in Hv as (u & Hu & Hvu). apply Qeq_bool_eq in Hvu.
      unfold U2 in Hu. apply filter_In in Hu as [_ Hu].
      apply negb_true_iff in Hu. apply negb_true_iff.
      apply not_true_iff_false. rewrite Qeq_bool_iff. intros Hva.
      apply not_true_iff_false in Hu. apply Hu, Qeq_bool_iff.
      now rewrite <- Hvu. }
    lia. }
  fold U2.
  pose proof (fq_super_strict A (n - A) HA HnA) as Hstrict.
  replace (A + (n - A))%Z with n in Hstrict by lia.
  unfold term1. fold n. unfold fq in Hstrict at 3. lia.
Qed.

(** When the statistic is not zero, two values differ. *)
Lemma pair_sum_all_equal precx (x0 : Q) xv :
  Forall (fun v => v == x0) xv -> pair_sum precx xv = 0%Z.
Proof.
  induction 1 as [|xi r Hxi Hr IH]; [reflexivity|].
  simpl. rewrite IH. rewrite (Zsum_const 0%Z); [lia|].
  eapply Forall_impl; [exact Hr|]. intros v Hv. cbv beta in Hv |- *.
  assert (E : v - xi == 0) by (rewrite Hv, Hxi; ring).
  rewrite (sgn1_proper precx precx (reflexivity _) _ _ E).
  unfold sgn1, np_sign. now destruct (Qltb _ _).
Qed.

Lemma S_nonzero_distinct precx xv :
  S_of precx xv <> 0%Z -> exists a b, In a xv /\ In b xv /\ ~ b == a.
Proof.
  rewrite S_of_pair_sum. intros HS.
  destruct xv as [|x0 r]; [now contradiction HS|].
  destruct (Forall_Exists_dec (fun v => v == x0) (fun v => ~ v == x0)
              (fun v => Qeq_dec v x0) (x0 :: r)) as [Hall|Hex].
  - exfalso. apply HS. now apply (pair_sum_all_equal precx x0).
  - apply Exists_exists in Hex as (b & Hb & Hne).
    exists x0, b. repeat split;
      [now left|now apply list_elem_of_In|exact Hne].
Qed.

Lemma varS_positive precx xv :
  0 < precx -> separated precx xv -> S_of precx xv <> 0%Z ->
  0 < varS_of precx xv.
Proof.
  intros Hp Hs HS.
  destruct (S_nonzero_distinct precx xv HS) as (a & b & Ha & Hb & Hab).
  pose proof (term2_lt_term1 precx xv a b Hp Hs Ha Hb Hab) as Hlt.
  unfold varS_of, varS.
  apply Qlt_shift_div_l; [reflexivity|].
  rewrite Qmult_0_l. change 0 with (inject_Z 0). rewrite <- Zlt_Qlt. lia.
Qed.

Section WithLib.
Context {L : NumLib}.

(** X16: on data whose values are equal or at least the tolerance apart
    (data rounded to a grid coarser than a positive tolerance, as in
    the example script), the tie groups do not overlap: for every call
    that returns, the variance is positive and the p-value is a number
    in [[0, 1]]. *)
Theorem X16_separated_data (s s' : store) t x tv xv precx alpha Ha r :
  s !! t = Some (FArr tv) -> s !! x = Some (FArr xv) ->
  0 < precx -> separated precx xv ->
  test t x (Some precx) alpha Ha s = (s', Ok r) ->
  0 < varS_of precx xv /\ fl_in 0 1 (r_p r).
Proof.
  intros Ht Hx Hp Hs Hr.
  destruct (test_ok_decide _ _ _ _ _ _ _ _ _ _ Ht Hx Hr)
    as (p & a & h & [= <-] & _ & _ & _ & Hd).
  destruct (verdict_words _ _ _ _ _ _ _ _ _ Hd) as [Hrec _].
  destruct (Zmk (S_of precx xv) precx (varS_of precx xv)) as [z|] eqn:Hz.
  2:{ apply decide_out_ok in Hd as (mk & _ & _ & Hmk & _).
      rewrite Hz, MK_unbound in Hmk by exact Hrec. discriminate. }
  assert (HS : S_of precx xv <> 0%Z).
  { intros H0. rewrite H0, Zmk_band in Hz;
      [discriminate|exact Hp| |]; change (inject_Z 0) with 0; lra. }
  pose proof (varS_positive precx xv Hp Hs HS) as Hv.
  split; [exact Hv|].
  destruct (Zmk_finite _ _ _ _ Hv Hz) as [q ->].
  now apply (p_value_range _ _ _ _ _ _ _ _ _ _ Hd Hz).
Qed.

End WithLib.

Lemma X16_separated_data_witness :
  exists s' r,
    (0 < 1 # 1000 /\ separated (1 # 1000) [1; 1; 2; 4] /\
     test (L := demo_lib) 0 1 (Some (1 # 1000)) (Some (1 # 20)) (Some "up")
       (caller [0; 1; 2; 3] [1; 1; 2; 4]) = (s', Ok r)) /\
    0 < varS_of (1 # 1000) [1; 1; 2; 4] /\ fl_in 0 1 (r_p r).
Proof.
  assert (Hs : separated (1 # 1000) [1; 1; 2; 4]).
  { unfold separated. cbn [pairwise].
    repeat match goal with
           | |- Forall _ _ => constructor
           | |- _ /\ _ => split
           | |- True => exact I
           | |- _ \/ _ => first [left; reflexivity|right; discriminate]
           end. }
  do 2 eexists.
  split; [split; [reflexivity|split; [exact Hs|vm_compute; reflexivity]]|].
  eapply (X16_separated_data (L := demo_lib) (caller [0; 1; 2; 3] [1; 1; 2; 4])
            _ 0%nat 1%nat [0; 1; 2; 3] [1; 1; 2; 4] (1 # 1000) (Some (1 # 20))
            (Some "up"));
    first [exact Hs|vm_compute; reflexivity].
Defined.

End Grid.

(** ** The parameters: tolerance, significance level, alternative *)

Module Params.
Import Num Py Np Mkt Fun Run Whole Stat FloatFacts Demo.
Import Mismatch Cases Holds Returned.
Local Open Scope Q_scope.
Local Open Scope string_scope.
Local Open Scope list_scope.

Section WithLib.
Context {L : NumLib}.



(** X18: the p-value of the two-sided alternative is half of a
    one-sided tail: when the variance is positive, it is a number in
    [[0, 1/2]] for every call that returns. *)
Theorem X18_two_sided_at_most_half (s s' : store) t x tv xv precx alpha r :
  s !! t = Some (FArr tv) -> s !! x = Some (FArr xv) ->
  0 < varS_of precx xv ->
  test t x (Some precx) alpha (Some "upordown") s = (s', Ok r) ->
  fl_in 0 (1 # 2) (r_p r).
Proof.
  intros Ht Hx Hv Hr.
  destruct (test_ok_decide _ _ _ _ _ _ _ _ _ _ Ht Hx Hr)
    as (p & a & h & [= <-] & _ & [= <-] & _ & Hd).
  apply decide_out_ok in Hd as (mk & m & pv & Hmk & _ & Hpv & ->).
  simpl r_p.
  destruct (Zmk (S_of precx xv) precx (varS_of precx xv)) as [z|] eqn:Hz.
  2:{ rewrite MK_unbound in Hmk by (right; now right). discriminate. }
  destruct (Zmk_finite _ _ _ _ Hv Hz) as [q ->].
  pose proof (ndtr_range (Fin q) ltac:(discriminate)) as Hn.
  revert Hpv. unfold out, pvalue, bind, read_var, ret.
  destruct (Qltb 0 (inject_Z (S_of precx xv) - precx)) eqn:E1;
    [|destruct (Qeq_bool (inject_Z (S_of precx xv) - precx) 0) eqn:E2;
      [|destruct (Qltb (inject_Z (S_of precx xv) + precx) 0) eqn:E3]].
  4:{ unfold Zmk in Hz. rewrite E1, E2, E3 in Hz. discriminate. }
  all: eval_eqb; intros [= <-]; cbn [ndtr fl_in fl_mul fl_sub] in *; lra.
Qed.

(** X19: the linear fit looks at the two arrays only: two calls on the
    same data that return, with whatever tolerances, significance
    levels and alternatives, give the same slope and the same
    intercept. *)
Theorem X19_fit_ignores_parameters (s1 s2 s1' s2' : store) t x t' x' tv xv
    precx alpha Ha precx' alpha' Ha' r1 r2 :
  s1 !! t = Some (FArr tv) -> s1 !! x = Some (FArr xv) ->
  s2 !! t' = Some (FArr tv) -> s2 !! x' = Some (FArr xv) ->
  test t x precx alpha Ha s1 = (s1', Ok r1) ->
  test t' x' precx' alpha' Ha' s2 = (s2', Ok r2) ->
  r_m r2 = r_m r1 /\ r_c r2 = r_c r1.
Proof.
  intros Ht Hx Ht' Hx' Hr1 Hr2.
  destruct (test_ok_decide _ _ _ _ _ _ _ _ _ _ Ht Hx Hr1)
    as (p & a & h & _ & _ & _ & _ & Hd1).
  destruct (test_ok_decide _ _ _ _ _ _ _ _ _ _ Ht' Hx' Hr2)
    as (p' & a' & h' & _ & _ & _ & _ & Hd2).
  apply decide_out_ok in Hd1 as (mk1 & m1 & pv1 & _ & Hm1 & _ & ->).
  apply decide_out_ok in Hd2 as (mk2 & m2 & pv2 & _ & Hm2 & _ & ->).
  rewrite Hm1 in Hm2. injection Hm2 as <-. split; reflexivity.
Qed.

End WithLib.


Lemma X18_two_sided_at_most_half_witness :
  exists s' r,
    (0 < varS_of (1 # 1000) [1; 2; 4] /\
     test (L := demo_lib) 0 1 (Some (1 # 1000)) (Some (1 # 20))
       (Some "upordown") (caller [0; 1; 2] [1; 2; 4]) = (s', Ok r)) /\
    fl_in 0 (1 # 2) (r_p r).
Proof.
  do 2 eexists. split; [split; vm_compute; reflexivity|].
  eapply (X18_two_sided_at_most_half (L := demo_lib)
            (caller [0; 1; 2] [1; 2; 4]) _ 0%nat 1%nat [0; 1; 2] [1; 2; 4]
            (1 # 1000) (Some (1 # 20)));
    vm_compute; reflexivity.
Defined.

Lemma X19_fit_ignores_parameters_witness :
  exists s1' s2' r1 r2,
    (test (L := demo_lib) 0 1 (Some (1 # 1000)) (Some (1 # 20)) (Some "up")
       (caller [0; 1; 2] [1; 2; 4]) = (s1', Ok r1) /\
     test (L := demo_lib) 0 1 (Some (1 # 2)) (Some (1 # 10)) (Some "down")
       (caller [0; 1; 2] [1; 2; 4]) = (s2', Ok r2)) /\
    r_m r2 = r_m r1 /\ r_c r2 = r_c r1.
Proof.
  do 4 eexists. split; [split; vm_compute; reflexivity|].
  eapply (X19_fit_ignores_parameters (L := demo_lib)
            (caller [0; 1; 2] [1; 2; 4]) (caller [0; 1; 2] [1; 2; 4]) _ _
            0%nat 1%nat 0%nat 1%nat [0; 1; 2] [1; 2; 4]
            (Some (1 # 1000)) (Some (1 # 20)) (Some "up")
            (Some (1 # 2)) (Some (1 # 10)) (Some "down"));
    vm_compute; reflexivity.
Defined.

End Params.
